(** * Verification of the lyric-face mosaic renderer ([renderToCanvas]
      and [textCharacters] in the page component).

    JavaScript numbers are modelled as real numbers (IEEE rounding is not
    modelled); array indices, canvas dimensions and UTF-16 code units are
    integers ([Z]). *)

From Stdlib Require Import Reals Psatz ZArith String Ascii List Bool Lia.
Import ListNotations.
Local Open Scope R_scope.

(** ** JavaScript numeric primitives *)

(** [Math.floor]: the integer part of a real, as an integer-valued number. *)
Definition floorZ (x : R) : Z := Int_part x.

Definition jsFloor (x : R) : R := IZR (floorZ x).

(** [Math.round]: the nearest integer, ties towards +infinity. *)
Definition jsRound (x : R) : Z := Int_part (x + / 2).

(** [Math.min] and [Math.max]. *)
Definition jsMin (a b : R) : R := Rmin a b.

Definition jsMax (a b : R) : R := Rmax a b.

(** [clamp] of the source: [Math.min(Math.max(value, min), max)]. *)
Definition clamp (value min max : R) : R := jsMin (jsMax value min) max.

(** [Math.pow(base, e)] for a non-negative base and a positive exponent:
    [0] at base [0], [exp (e * ln base)] above. *)
Definition jsPow (base e : R) : R :=
  if Rlt_dec 0 base then Rpower base e else 0.

(** Truncation towards zero (the IntegerPart step of WebIDL conversions). *)
Definition truncZ (x : R) : Z :=
  if Rle_dec 0 x then Int_part x else (- Int_part (- x))%Z.

(** WebIDL [unsigned long] conversion (truncate, then modulo 2^32). *)
Definition toUint32 (x : R) : Z := (truncZ x mod 2 ^ 32)%Z.

(** Setting [canvas.width] / [canvas.height] (reflected [unsigned long]
    attributes): values above 2^31 - 1 fall back to the default. *)
Definition setCanvasDim (dflt : Z) (v : R) : Z :=
  let n := toUint32 v in if (n <=? 2 ^ 31 - 1)%Z then n else dflt.

(** ** Cell styling (the body of the inner loop, lines 127-136) *)

Record CellStyle := {
  luminance : R;
  contrasted : R;
  intensity : R;
  weight : Z;
  size : R;
  alpha : R
}.

Definition cellStyle (r g b contrast scaledFont : R) : CellStyle :=
  let lum := 0.2126 * r + 0.7152 * g + 0.0722 * b in
  let con := clamp ((lum - 128) * contrast + 128) 0 255 in
  let int := jsPow (1 - con / 255) 0.65 in
  {| luminance := lum;
     contrasted := con;
     intensity := int;
     weight := jsRound (300 + int * 600);
     size := scaledFont * (0.85 + int * 0.8);
     alpha := 0.45 + int * 0.55 |}.

(** ** Pixel sampling (lines 109-125) *)

(** Indexing a [Uint8ClampedArray]: a non-integral, negative or out-of-range
    index yields [undefined] ([None]). *)
Definition typedGet (buf : list Z) (i : R) : option Z :=
  let k := floorZ i in
  if Req_dec_T (IZR k) i then
    if (0 <=? k)%Z then nth_error buf (Z.to_nat k) else None
  else None.

(** [imageData[i] ?? 0]. *)
Definition readOr0 (buf : list Z) (i : R) : R :=
  match typedGet buf i with Some v => IZR v | None => 0 end.

Record Sample := {
  sampleX : R;
  sampleY : R;
  pixelIndex : R;
  altIndex : R;
  sr : R;
  sg : R;
  sb : R
}.

(** The two-tap sampler of the inner loop, on the surface [baseWidth] x
    [baseHeight] and the buffer [imageData] read back from it. *)
Definition samplePixel (imageData : list Z) (baseWidth baseHeight x y : R) : Sample :=
  let sX := jsMin (baseWidth - 1) (jsMax 0 (jsFloor x)) in
  let sY := jsMin (baseHeight - 1) (jsMax 0 (jsFloor y)) in
  let pix := (sY * baseWidth + sX) * 4 in
  let alt := (jsMin (baseHeight - 1) (sY + 1) * baseWidth +
              jsMin (baseWidth - 1) (sX + 1)) * 4 in
  {| sampleX := sX; sampleY := sY; pixelIndex := pix; altIndex := alt;
     sr := (readOr0 imageData pix + readOr0 imageData alt) / 2;
     sg := (readOr0 imageData (pix + 1) + readOr0 imageData (alt + 1)) / 2;
     sb := (readOr0 imageData (pix + 2) + readOr0 imageData (alt + 2)) / 2 |}.

Definition clampIdx (n k : Z) : Z := Z.min (n - 1) (Z.max 0 k).

(** ** Glyph stream ([textCharacters], lines 41-44, and lines 143-144) *)

(** Strings are sequences of UTF-16 code units. *)
Definition codeUnits := list Z.

(** ECMAScript WhiteSpace and LineTerminator code units: the class [\s] of
    regular expressions and the set removed by [String.prototype.trim]. *)
Definition isWs (c : Z) : bool :=
  (Z.eqb c 9 || Z.eqb c 10 || Z.eqb c 11 || Z.eqb c 12 || Z.eqb c 13 ||
   Z.eqb c 32 || Z.eqb c 160 || Z.eqb c 5760 ||
   ((8192 <=? c) && (c <=? 8202))%Z ||
   Z.eqb c 8232 || Z.eqb c 8233 || Z.eqb c 8239 || Z.eqb c 8287 ||
   Z.eqb c 12288 || Z.eqb c 65279)%bool.

Definition space : Z := 32.

Definition newline : Z := 10.

(** The placeholder "•" (U+2022). *)
Definition bullet : Z := 8226.

(** [s.replace(/\s+/g, " ")]: every maximal run of whitespace becomes one
    space; [inRun] records that the previous unit was whitespace. *)
Fixpoint collapseWsFrom (inRun : bool) (s : codeUnits) : codeUnits :=
  match s with
  | [] => []
  | c :: t =>
      if isWs c then
        if inRun then collapseWsFrom true t else space :: collapseWsFrom true t
      else c :: collapseWsFrom false t
  end.

Definition collapseWs (s : codeUnits) : codeUnits := collapseWsFrom false s.

Fixpoint dropWs (s : codeUnits) : codeUnits :=
  match s with
  | [] => []
  | c :: t => if isWs c then dropWs t else s
  end.

(** [String.prototype.trim]. *)
Definition trim (s : codeUnits) : codeUnits := rev (dropWs (rev (dropWs s))).

(** [textCharacters]: [split("")] yields the code units themselves. *)
Definition textCharacters (lyrics : codeUnits) : codeUnits :=
  let sanitized := trim (collapseWs lyrics) in
  if Nat.ltb 0 (length sanitized) then sanitized else [bullet].

(** The glyph drawn for character index [charIndex]:
    [textCharacters[charIndex % textCharacters.length]], with a newline
    replaced by a space. *)
Definition glyphAt (chars : codeUnits) (charIndex : nat) : Z :=
  let nextChar := nth (charIndex mod length chars) chars 0%Z in
  if Z.eqb nextChar newline then space else nextChar.

(** ** The render ([renderToCanvas], lines 61-151) *)

Record CanvasSettings := {
  fontSize : R;
  spacing : R;
  contrast : R;
  monochrome : bool;
  underlay : R
}.

(** A [fillStyle] of the form [rgba(r, g, b, a)]. *)
Record Fill := { fr : Z; fg : Z; fb : Z; fa : R }.

(** The drawing calls the render issues on the 2D context, in order. *)
Inductive DrawOp :=
| ClearRect (w h : R)
| FillRectBackground (w h : R)                 (* fillStyle "#FAFAFA" *)
| DrawImageAlpha (globalAlpha : R) (w h : R)   (* save; globalAlpha; drawImage; restore *)
| FillText (ch : Z) (x y : R) (fontWeight : Z) (fontPx : R) (fill : Fill).

(** A canvas: its [width] and [height] attributes and what is painted on
    its bitmap since the bitmap was last reset. *)
Record Canvas := { cwidth : Z; cheight : Z; painted : list DrawOp }.

(** A loaded image element.  [readBack bw bh] is the RGBA8 buffer that
    [getImageData(0, 0, bw, bh)] returns after the image is drawn at
    [bw] x [bh] on the temporary canvas (the platform's resampling). *)
Record HTMLImage := { readBack : R -> R -> list Z }.

(** The component state the render reads. *)
Record Component := {
  imageRef : option HTMLImage;
  imageWidth : Z;    (* imageSize.width  (naturalWidth)  *)
  imageHeight : Z;   (* imageSize.height (naturalHeight) *)
  previewWidth : Z;  (* an integer: 720 or a clamped clientWidth *)
  settings : CanvasSettings;
  lyrics : codeUnits
}.

(** Number of guard evaluations a loop [for (v = 0; v < bound; v += step)]
    needs when [step > 0]: one more than [ceil(bound / step)]. *)
Definition loopFuel (bound step : R) : nat := S (Z.to_nat (up (bound / step))).

Section Traversal.
Variables (imageData : list Z) (baseWidth baseHeight : R).
Variables (scaledFont stepX stepY : R).
Variables (contrastS : R) (mono : bool) (chars : codeUnits).

(** One iteration of the inner loop body (lines 109-146). *)
Definition cellOp (x y : R) (charIndex : nat) : DrawOp :=
  let s := samplePixel imageData baseWidth baseHeight x y in
  let st := cellStyle (sr s) (sg s) (sb s) contrastS scaledFont in
  let fill :=
    if mono then {| fr := 26; fg := 26; fb := 26; fa := alpha st |}
    else {| fr := jsRound (sr s); fg := jsRound (sg s); fb := jsRound (sb s);
            fa := alpha st |} in
  FillText (glyphAt chars charIndex) x y (weight st) (size st) fill.

(** [for (let x = 0; x < baseWidth; x += stepX)]; returns the ops and the
    updated [charIndex]. *)
Fixpoint colLoop (fuel : nat) (x y : R) (charIndex : nat) : list DrawOp * nat :=
  match fuel with
  | O => ([], charIndex)
  | S f =>
      if Rlt_dec x baseWidth then
        let '(ops, ci) := colLoop f (x + stepX) y (S charIndex) in
        (cellOp x y charIndex :: ops, ci)
      else ([], charIndex)
  end.

(** [for (let y = 0; y < baseHeight; y += stepY)]. *)
Fixpoint rowLoop (fuel : nat) (y : R) (charIndex : nat) : list DrawOp :=
  match fuel with
  | O => []
  | S f =>
      if Rlt_dec y baseHeight then
        let '(ops, ci) := colLoop (loopFuel baseWidth stepX) 0 y charIndex in
        ops ++ rowLoop f (y + stepY) ci
      else []
  end.
End Traversal.

Definition baseWidthOf (previewW : Z) (scale : R) : R := jsFloor (IZR previewW * scale).

Definition baseHeightOf (previewW : Z) (aspect scale : R) : R :=
  jsFloor (IZR previewW / aspect) * scale.

(** [renderToCanvas(canvas, scale, detailBoost)]: the new state of the
    canvas ([None] stands for a [null] canvas).  The 2D contexts of the
    target and of the temporary canvas are taken to be available. *)
Definition renderToCanvas (c : Component) (canvas : option Canvas)
    (scale detailBoost : R) : option Canvas :=
  match canvas, imageRef c with
  | Some _, Some imageElement =>
      if (Z.eqb (imageWidth c) 0 || Z.eqb (imageHeight c) 0)%bool then canvas
      else
        let s := settings c in
        let aspect := IZR (imageWidth c) / IZR (imageHeight c) in
        let baseWidth := baseWidthOf (previewWidth c) scale in
        let baseHeight := baseHeightOf (previewWidth c) aspect scale in
        let imageData := readBack imageElement baseWidth baseHeight in
        let scaledFont := fontSize s * scale in
        let detailFactor := jsMax 0.5 (jsMin detailBoost 1) in
        let stepX := scaledFont * spacing s * detailFactor in
        let stepY := scaledFont * spacing s * 1.4 * detailFactor in
        let glyphs :=
          rowLoop imageData baseWidth baseHeight scaledFont stepX stepY
                  (contrast s) (monochrome s) (textCharacters (lyrics c))
                  (loopFuel baseHeight stepY) 0 0 in
        Some {| cwidth := setCanvasDim 300 baseWidth;
                cheight := setCanvasDim 150 baseHeight;
                painted := [ClearRect baseWidth baseHeight;
                            FillRectBackground baseWidth baseHeight;
                            DrawImageAlpha (underlay s) baseWidth baseHeight]
                           ++ glyphs |}
  | _, _ => canvas
  end.



(** ** Sample inputs *)

Definition sampleSettings (u : R) (mono : bool) : CanvasSettings :=
  {| fontSize := 18; spacing := 1.2; contrast := 1; monochrome := mono; underlay := u |}.

(** The RGBA8 buffer of a 2 x 2 image: (10, 20, 30) at (0, 0), black at
    (1, 0) and (0, 1), (50, 60, 70) at (1, 1), all opaque. *)
Definition twoByTwo : list Z :=
  [10; 20; 30; 255;  0; 0; 0; 255;
   0; 0; 0; 255;  50; 60; 70; 255]%Z.

Definition blankCanvas : Canvas := {| cwidth := 300; cheight := 150; painted := [] |}.

Definition sampleComponent (pw iw ih : Z) (u : R) (mono : bool) : Component :=
  {| imageRef := Some {| readBack := fun _ _ => [] |};
     imageWidth := iw; imageHeight := ih; previewWidth := pw;
     settings := sampleSettings u mono; lyrics := [] |}.

(** ** Monochrome comparison *)

Definition sampleColor (imageData : list Z) (bw bh x y : R) : Z * Z * Z :=
  let s := samplePixel imageData bw bh x y in
  (jsRound (sr s), jsRound (sg s), jsRound (sb s)).

(** How a cell drawn in monochrome mode ([o1]) relates to the same cell drawn
    in colour ([o2]); operations other than glyphs are identical. *)
Definition monoRel (color : R -> R -> Z * Z * Z) (o1 o2 : DrawOp) : Prop :=
  match o1, o2 with
  | FillText ch1 x1 y1 w1 s1 f1, FillText ch2 x2 y2 w2 s2 f2 =>
      ch1 = ch2 /\ x1 = x2 /\ y1 = y2 /\ w1 = w2 /\ s1 = s2 /\ fa f1 = fa f2 /\
      (fr f1, fg f1, fb f1) = (26, 26, 26)%Z /\
      (fr f2, fg f2, fb f2) = color x2 y2
  | _, _ => o1 = o2
  end.

Definition withMono (c : Component) (m : bool) : Component :=
  {| imageRef := imageRef c; imageWidth := imageWidth c; imageHeight := imageHeight c;
     previewWidth := previewWidth c; lyrics := lyrics c;
     settings := {| fontSize := fontSize (settings c); spacing := spacing (settings c);
                    contrast := contrast (settings c); monochrome := m;
                    underlay := underlay (settings c) |} |}.

(** ** Uniform gray input *)

(** The RGBA8 buffer of a uniform (128, 128, 128) opaque image of [w] x [h]
    pixels. *)
Definition grayPixel : list Z := [128; 128; 128; 255]%Z.

Definition grayBuffer (w h : Z) : list Z := concat (repeat grayPixel (Z.to_nat (w * h))).

(** A 100 x 100 image that is uniform gray (128, 128, 128) at every size it
    is drawn at. *)
Definition grayImage : HTMLImage := {| readBack := fun w h => grayBuffer (floorZ w) (floorZ h) |}.

Definition grayComponent : Component :=
  {| imageRef := Some grayImage; imageWidth := 100; imageHeight := 100;
     previewWidth := 280; settings := sampleSettings 0 false; lyrics := [] |}.

(** ** The page component ([Home], lines 21-198) *)

(** Code units of an ASCII string literal. *)
Definition codeUnitsOf (s : String.string) : codeUnits :=
  map (fun a => Z.of_nat (nat_of_ascii a)) (String.list_ascii_of_string s).

Definition DEFAULT_LYRICS : codeUnits :=
  codeUnitsOf "Every whispered line becomes a field of light. The chorus blooms, the silence fades, and the story stays."%string.


(** A [File] as [handleFile] sees it: its MIME type. *)
Record File := { fileType : String.string }.

(** The component state ([useState] cells), the DOM refs it reads, and the
    object URLs of the images whose [onload] is still pending. *)
Record HomeState := {
  imageRefS : option HTMLImage;      (* imageRef.current *)
  imageSrc : option String.string;
  imageSize : Z * Z;                 (* { width, height } *)
  lyricsS : codeUnits;
  settingsS : CanvasSettings;
  isDragging : bool;
  processed : bool;
  previewWidthS : Z;
  previewCanvas : option Canvas;     (* previewCanvasRef.current *)
  previewKey : option String.string; (* the key (image source) of the mounted preview canvas *)
  hdCanvas : option Canvas;          (* hdCanvasRef.current *)
  pendingLoads : list String.string  (* img.onload handlers not yet run *)
}.

Definition initialSettings : CanvasSettings :=
  {| fontSize := 18; spacing := 1.2; contrast := 1; monochrome := false; underlay := 0.08 |}.

(** The first render: no image, so the preview [<canvas>] (rendered only
    while [imageSrc] is set, line 298) is not mounted; [hd] is the hidden
    export canvas (line 325). *)
Definition initialState (hd : option Canvas) : HomeState :=
  {| imageRefS := None; imageSrc := None; imageSize := (0, 0)%Z;
     lyricsS := DEFAULT_LYRICS; settingsS := initialSettings;
     isDragging := false; processed := false; previewWidthS := 720;
     previewCanvas := None; previewKey := None; hdCanvas := hd; pendingLoads := [] |}.

(** What [renderToCanvas] reads from the state. *)
Definition componentOf (st : HomeState) : Component :=
  {| imageRef := imageRefS st; imageWidth := fst (imageSize st);
     imageHeight := snd (imageSize st); previewWidth := previewWidthS st;
     settings := settingsS st; lyrics := lyricsS st |}.

Definition setPending (st : HomeState) (l : list String.string) : HomeState :=
  {| imageRefS := imageRefS st; imageSrc := imageSrc st; imageSize := imageSize st;
     lyricsS := lyricsS st; settingsS := settingsS st; isDragging := isDragging st;
     processed := processed st; previewWidthS := previewWidthS st;
     previewCanvas := previewCanvas st; previewKey := previewKey st; hdCanvas := hdCanvas st; pendingLoads := l |}.

Definition setDragging (st : HomeState) (b : bool) : HomeState :=
  {| imageRefS := imageRefS st; imageSrc := imageSrc st; imageSize := imageSize st;
     lyricsS := lyricsS st; settingsS := settingsS st; isDragging := b;
     processed := processed st; previewWidthS := previewWidthS st;
     previewCanvas := previewCanvas st; previewKey := previewKey st; hdCanvas := hdCanvas st;
     pendingLoads := pendingLoads st |}.

Definition setLyrics (st : HomeState) (t : codeUnits) : HomeState :=
  {| imageRefS := imageRefS st; imageSrc := imageSrc st; imageSize := imageSize st;
     lyricsS := t; settingsS := settingsS st; isDragging := isDragging st;
     processed := processed st; previewWidthS := previewWidthS st;
     previewCanvas := previewCanvas st; previewKey := previewKey st; hdCanvas := hdCanvas st;
     pendingLoads := pendingLoads st |}.

Definition setSettings (st : HomeState) (s : CanvasSettings) : HomeState :=
  {| imageRefS := imageRefS st; imageSrc := imageSrc st; imageSize := imageSize st;
     lyricsS := lyricsS st; settingsS := s; isDragging := isDragging st;
     processed := processed st; previewWidthS := previewWidthS st;
     previewCanvas := previewCanvas st; previewKey := previewKey st; hdCanvas := hdCanvas st;
     pendingLoads := pendingLoads st |}.

Definition setPreviewWidth (st : HomeState) (w : Z) : HomeState :=
  {| imageRefS := imageRefS st; imageSrc := imageSrc st; imageSize := imageSize st;
     lyricsS := lyricsS st; settingsS := settingsS st; isDragging := isDragging st;
     processed := processed st; previewWidthS := w;
     previewCanvas := previewCanvas st; previewKey := previewKey st; hdCanvas := hdCanvas st;
     pendingLoads := pendingLoads st |}.

Definition setHdCanvas (st : HomeState) (cv : option Canvas) : HomeState :=
  {| imageRefS := imageRefS st; imageSrc := imageSrc st; imageSize := imageSize st;
     lyricsS := lyricsS st; settingsS := settingsS st; isDragging := isDragging st;
     processed := processed st; previewWidthS := previewWidthS st;
     previewCanvas := previewCanvas st; previewKey := previewKey st; hdCanvas := cv;
     pendingLoads := pendingLoads st |}.

(** [handleFile(file)] (lines 46-59): a missing file or one whose type does
    not start with "image/" is ignored; otherwise an object URL is created
    and the image starts loading (its [onload] is pending). *)
Definition handleFile (file : option File) (objectUrl : String.string) (st : HomeState) : HomeState :=
  match file with
  | None => st
  | Some f =>
      if String.prefix "image/"%string (fileType f)
      then setPending st (pendingLoads st ++ [objectUrl])
      else st
  end.

(** [img.onload] (lines 52-57) for the image loading from [objectUrl], once
    decoded to [img] of natural size [nw] x [nh]. *)
Definition onImageLoad (objectUrl : String.string) (img : HTMLImage) (nw nh : Z)
    (st : HomeState) : HomeState :=
  {| imageRefS := Some img; imageSrc := Some objectUrl; imageSize := (nw, nh);
     lyricsS := lyricsS st; settingsS := settingsS st; isDragging := isDragging st;
     processed := false; previewWidthS := previewWidthS st;
     previewCanvas := previewCanvas st; previewKey := previewKey st; hdCanvas := hdCanvas st;
     pendingLoads := pendingLoads st |}.

(** [files?.[0] ?? null] (lines 196 and 239). *)
Definition firstFile (files : option (list File)) : option File :=
  match files with
  | Some (f :: _) => Some f
  | _ => None
  end.

(** [window.devicePixelRatio || 1] and [Math.min(2, ...)] (lines 157-160);
    [None] when [window] is undefined. *)
Definition previewScale (win : option R) : R :=
  match win with
  | Some dpr => jsMin 2 (if Req_dec_T dpr 0 then 1 else dpr)
  | None => 1
  end.

(** The preview effect (lines 153-163). *)
Definition previewEffect (win : option R) (st : HomeState) : HomeState :=
  match imageSrc st with
  | None => st
  | Some _ =>
      match previewCanvas st with
      | None => st
      | Some _ =>
          {| imageRefS := imageRefS st; imageSrc := imageSrc st; imageSize := imageSize st;
             lyricsS := lyricsS st; settingsS := settingsS st; isDragging := isDragging st;
             processed := true; previewWidthS := previewWidthS st;
             previewCanvas := renderToCanvas (componentOf st) (previewCanvas st)
                                             (previewScale win) 0.7;
             previewKey := previewKey st;
             hdCanvas := hdCanvas st; pendingLoads := pendingLoads st |}
      end
  end.

(** The [resize] listener (lines 166-170); [clientWidth] is [None] while the
    container is not mounted. *)
Definition resize (clientWidth : option Z) (st : HomeState) : HomeState :=
  match clientWidth with
  | None => st
  | Some cw => setPreviewWidth st (Z.max (Z.min cw 820) 280)
  end.

(** [<AnimatePresence mode="wait">] (lines 297-324) mounting the preview
    child keyed by the current [imageSrc] (line 300), once the previous child
    (the placeholder, or the canvas of the previous image) has finished its
    exit animation: the previous canvas is unmounted and a fresh [<canvas>]
    element (300 x 150, nothing drawn) is attached to [previewCanvasRef]
    (line 308).  Nothing happens if the child for this source is already
    mounted. *)
Definition mountPreview (st : HomeState) : HomeState :=
  match imageSrc st with
  | None => st
  | Some u =>
      match previewKey st with
      | Some k => if String.eqb k u then st else
          {| imageRefS := imageRefS st; imageSrc := imageSrc st; imageSize := imageSize st;
             lyricsS := lyricsS st; settingsS := settingsS st; isDragging := isDragging st;
             processed := processed st; previewWidthS := previewWidthS st;
             previewCanvas := Some blankCanvas; previewKey := Some u;
             hdCanvas := hdCanvas st; pendingLoads := pendingLoads st |}
      | None =>
          {| imageRefS := imageRefS st; imageSrc := imageSrc st; imageSize := imageSize st;
             lyricsS := lyricsS st; settingsS := settingsS st; isDragging := isDragging st;
             processed := processed st; previewWidthS := previewWidthS st;
             previewCanvas := Some blankCanvas; previewKey := Some u;
             hdCanvas := hdCanvas st; pendingLoads := pendingLoads st |}
      end
  end.

(** [handleDownload] (lines 184-193): the new state and the download it
    triggers, if any (the file name and the canvas whose PNG is saved). *)
Definition handleDownload (st : HomeState) : HomeState * option (String.string * Canvas) :=
  match imageSrc st with
  | None => (st, None)
  | Some _ =>
      let st' := setHdCanvas st (renderToCanvas (componentOf st) (hdCanvas st) 4 1) in
      match hdCanvas st' with
      | None => (st', None)
      | Some hd => (st', Some ("lyric-artwork.png"%string, hd))
      end
  end.

Definition withFontSize (s : CanvasSettings) (v : R) : CanvasSettings :=
  {| fontSize := v; spacing := spacing s; contrast := contrast s;
     monochrome := monochrome s; underlay := underlay s |}.

Definition withSpacing (s : CanvasSettings) (v : R) : CanvasSettings :=
  {| fontSize := fontSize s; spacing := v; contrast := contrast s;
     monochrome := monochrome s; underlay := underlay s |}.

Definition withContrast (s : CanvasSettings) (v : R) : CanvasSettings :=
  {| fontSize := fontSize s; spacing := spacing s; contrast := v;
     monochrome := monochrome s; underlay := underlay s |}.

Definition withUnderlay (s : CanvasSettings) (v : R) : CanvasSettings :=
  {| fontSize := fontSize s; spacing := spacing s; contrast := contrast s;
     monochrome := monochrome s; underlay := v |}.

Definition toggleMonochrome (s : CanvasSettings) : CanvasSettings :=
  {| fontSize := fontSize s; spacing := spacing s; contrast := contrast s;
     monochrome := negb (monochrome s); underlay := underlay s |}.

(** What can happen to the page.  The preview effect is allowed to run at
    any time (React runs it after renders whose dependencies changed); it
    runs in the commit of the render that changed [imageSrc], while the new
    preview canvas is not mounted yet ([PreviewMount] comes after the exit
    animation and changes none of the effect's dependencies). *)
Inductive Event :=
| InputChange (files : option (list File)) (objectUrl : String.string)
| Drop (files : option (list File)) (objectUrl : String.string)
| DragOver
| DragLeave
| ImageLoad (n : nat) (img : HTMLImage) (nw nh : Z)  (* the n-th pending onload *)
| LyricsInput (text : codeUnits)
| FontSizeInput (v : R)
| SpacingInput (v : R)
| ContrastInput (v : R)
| UnderlayInput (v : R)
| ToggleMonochrome
| Resize (clientWidth : option Z)
| PreviewEffect (win : option R)
| PreviewMount
| DownloadClick.

Definition step (st : HomeState) (ev : Event) : HomeState :=
  match ev with
  | InputChange files url => handleFile (firstFile files) url st
  | Drop files url => handleFile (firstFile files) url (setDragging st false)
  | DragOver => setDragging st true
  | DragLeave => setDragging st false
  | ImageLoad n img nw nh =>
      match nth_error (pendingLoads st) n with
      | Some url =>
          onImageLoad url img nw nh
            (setPending st (firstn n (pendingLoads st) ++ skipn (S n) (pendingLoads st)))
      | None => st
      end
  | LyricsInput t => setLyrics st t
  | FontSizeInput v => setSettings st (withFontSize (settingsS st) v)
  | SpacingInput v => setSettings st (withSpacing (settingsS st) v)
  | ContrastInput v => setSettings st (withContrast (settingsS st) v)
  | UnderlayInput v => setSettings st (withUnderlay (settingsS st) v)
  | ToggleMonochrome => setSettings st (toggleMonochrome (settingsS st))
  | Resize cw => resize cw st
  | PreviewEffect win => previewEffect win st
  | PreviewMount => mountPreview st
  | DownloadClick => fst (handleDownload st)
  end.

Definition run (st : HomeState) (evs : list Event) : HomeState := fold_left step evs st.

(** ** Glyph sequence and sanitised text *)



(** Every whitespace unit is a plain space. *)
Definition wsOnlySpace (s : codeUnits) : bool :=
  forallb (fun c => negb (isWs c) || Z.eqb c space) s.

(** No two adjacent spaces. *)
Fixpoint noAdjSpace (s : codeUnits) : bool :=
  match s with
  | a :: ((b :: _) as t) => negb (Z.eqb a space && Z.eqb b space) && noAdjSpace t
  | _ => true
  end.

Definition headNotWs (s : codeUnits) : bool :=
  match s with
  | c :: _ => negb (isWs c)
  | [] => true
  end.

(** * Proofs *)

Lemma lum_gray : 0.2126 * 128 + 0.7152 * 128 + 0.0722 * 128 = 128.
Proof. lra. Qed.

(** ** Numeric helper lemmas *)

Lemma clamp_range (v : R) : 0 <= clamp v 0 255 <= 255.
Proof.
  unfold clamp, jsMin, jsMax.
  split.
  - apply Rmin_glb; [apply Rmax_r | lra].
  - apply Rmin_r.
Qed.

(** A power of a base in [[0, 1]] with a positive exponent stays in [[0, 1]]. *)
Lemma jsPow_unit (b e : R) : 0 <= b <= 1 -> 0 < e -> 0 <= jsPow b e <= 1.
Proof.
  intros [Hb0 Hb1] He. unfold jsPow.
  destruct (Rlt_dec 0 b) as [Hpos | _]; [| lra].
  unfold Rpower. split; [left; apply exp_pos |].
  assert (Hln : ln b <= 0).
  { destruct (Req_dec b 1) as [-> | Hne].
    - rewrite ln_1; lra.
    - rewrite <- ln_1. left. apply ln_increasing; lra. }
  rewrite <- exp_0.
  destruct (Req_dec (e * ln b) 0) as [-> | Hne]; [lra |].
  left. apply exp_increasing.
  assert (e * ln b <= 0) by nra. lra.
Qed.

Lemma jsRound_range (v : R) (lo hi : Z) :
  IZR lo <= v <= IZR hi -> (lo <= jsRound v <= hi)%Z.
Proof.
  intros [Hlo Hhi]. unfold jsRound.
  destruct (base_Int_part (v + / 2)) as [H1 H2].
  split.
  - apply le_IZR. apply Rnot_lt_le. intro Hlt.
    apply lt_IZR in Hlt. apply Zlt_le_succ in Hlt. apply IZR_le in Hlt.
    rewrite succ_IZR in Hlt. lra.
  - apply le_IZR. apply Rnot_lt_le. intro Hlt.
    apply lt_IZR in Hlt. apply Zlt_le_succ in Hlt. apply IZR_le in Hlt.
    rewrite succ_IZR in Hlt. lra.
Qed.

Lemma intensity_unit (r g b contrast sf : R) :
  0 <= intensity (cellStyle r g b contrast sf) <= 1.
Proof.
  simpl. apply jsPow_unit; [| lra].
  pose proof (clamp_range ((0.2126 * r + 0.7152 * g + 0.0722 * b - 128) * contrast + 128)).
  lra.
Qed.

(** ** C2 *)

(** C2: for every sampled colour, contrast, font size and scale, the cell
    styling follows the luma / contrast / gamma formulas of the source, and
    the resulting font weight lies in [[300, 900]] and alpha in [[0.45, 1]]. *)
Theorem cellStyle_formulas_and_ranges (r g b contrast fontSize scale : R) :
  let st := cellStyle r g b contrast (fontSize * scale) in
  luminance st = 0.2126 * r + 0.7152 * g + 0.0722 * b /\
  contrasted st = clamp ((luminance st - 128) * contrast + 128) 0 255 /\
  intensity st = jsPow (1 - contrasted st / 255) 0.65 /\
  weight st = jsRound (300 + intensity st * 600) /\
  size st = fontSize * scale * (0.85 + intensity st * 0.8) /\
  alpha st = 0.45 + intensity st * 0.55 /\
  (300 <= weight st <= 900)%Z /\
  0.45 <= alpha st <= 1.
Proof.
  intros st.
  pose proof (intensity_unit r g b contrast (fontSize * scale)) as Hi.
  fold st in Hi.
  assert (Hw : (300 <= weight st <= 900)%Z).
  { apply jsRound_range. simpl in Hi |- *. lra. }
  assert (Ha : 0.45 <= alpha st <= 1).
  { simpl in Hi |- *. lra. }
  do 6 (split; [reflexivity |]).
  split; assumption.
Qed.

(** Integer-valued arithmetic on the sampler's indices. *)

Lemma Rmax_IZR (a b : Z) : Rmax (IZR a) (IZR b) = IZR (Z.max a b).
Proof.
  apply Rmax_case_strong; intro H.
  - apply le_IZR in H. f_equal. lia.
  - apply le_IZR in H. f_equal. lia.
Qed.

Lemma Rmin_IZR (a b : Z) : Rmin (IZR a) (IZR b) = IZR (Z.min a b).
Proof.
  apply Rmin_case_strong; intro H.
  - apply le_IZR in H. f_equal. lia.
  - apply le_IZR in H. f_equal. lia.
Qed.

Lemma floorZ_IZR (k : Z) : floorZ (IZR k) = k.
Proof. unfold floorZ. symmetry. apply Int_part_spec. lra. Qed.

Lemma floorZ_plus1 (x : R) : floorZ (x + 1) = (floorZ x + 1)%Z.
Proof.
  unfold floorZ. symmetry. apply Int_part_spec.
  destruct (base_Int_part x) as [H1 H2]. rewrite plus_IZR. lra.
Qed.

Lemma typedGet_IZR (buf : list Z) (k : Z) :
  (0 <= k)%Z -> typedGet buf (IZR k) = nth_error buf (Z.to_nat k).
Proof.
  intros Hk. unfold typedGet. rewrite floorZ_IZR.
  destruct (Req_dec_T (IZR k) (IZR k)) as [_ | C]; [| congruence].
  destruct (Z.leb_spec 0 k); [reflexivity | lia].
Qed.

Lemma samplePixel_indices (buf : list Z) (w h : Z) (x y : R) :
  let s := samplePixel buf (IZR w) (IZR h) x y in
  let px := clampIdx w (floorZ x) in
  let py := clampIdx h (floorZ y) in
  pixelIndex s = IZR ((py * w + px) * 4) /\
  altIndex s = IZR ((Z.min (h - 1) (py + 1) * w + Z.min (w - 1) (px + 1)) * 4).
Proof.
  cbn zeta. unfold samplePixel, clampIdx, jsMin, jsMax, jsFloor. cbn.
  rewrite <- !minus_IZR.
  change 0 with (IZR 0).
  rewrite !Rmax_IZR, !Rmin_IZR.
  rewrite <- !plus_IZR, !Rmin_IZR, <- !mult_IZR, <- !plus_IZR, <- !mult_IZR.
  split; reflexivity.
Qed.

Lemma samplePixel_coords (buf : list Z) (w h : Z) (x y : R) :
  let s := samplePixel buf (IZR w) (IZR h) x y in
  sampleX s = IZR (clampIdx w (floorZ x)) /\ sampleY s = IZR (clampIdx h (floorZ y)).
Proof.
  cbn zeta. unfold samplePixel, clampIdx, jsMin, jsMax, jsFloor. cbn.
  rewrite <- !minus_IZR. change 0 with (IZR 0).
  rewrite !Rmax_IZR, !Rmin_IZR. split; reflexivity.
Qed.

Lemma floorZ_nonneg (x : R) : 0 <= x -> (0 <= floorZ x)%Z.
Proof.
  intros Hx. unfold floorZ. destruct (base_Int_part x) as [_ H2].
  apply Z.lt_pred_le. apply lt_IZR. unfold Z.pred. rewrite plus_IZR. lra.
Qed.

Lemma flat_index_bounds (w h a b c : Z) :
  (0 <= a <= h - 1)%Z -> (0 <= b <= w - 1)%Z -> (0 <= c <= 2)%Z ->
  (0 <= (a * w + b) * 4 + c < 4 * w * h)%Z.
Proof. intros. nia. Qed.

Lemma readOr0_range (buf : list Z) (i : R) :
  Forall (fun v => (0 <= v <= 255)%Z) buf -> 0 <= readOr0 buf i <= 255.
Proof.
  intros Hall. unfold readOr0.
  destruct (typedGet buf i) as [v |] eqn:E; [| lra].
  unfold typedGet in E.
  destruct (Req_dec_T _ _); [| discriminate].
  destruct (0 <=? floorZ i)%Z; [| discriminate].
  apply nth_error_In in E. rewrite Forall_forall in Hall.
  destruct (Hall v E) as [H0 H1]. apply IZR_le in H0, H1. lra.
Qed.

Lemma typedGet_in_bounds (buf : list Z) (k : Z) :
  (0 <= k < Z.of_nat (length buf))%Z ->
  typedGet buf (IZR k) = Some (nth (Z.to_nat k) buf 0%Z).
Proof.
  intros Hk. rewrite typedGet_IZR by lia. apply nth_error_nth'. lia.
Qed.

(** ** C10 *)

(** C10: on a surface of integer size [w] x [h] (both at least 1) whose pixel
    buffer has length [4 * w * h], both sample indices of any coordinate, with
    channel offsets 0 to 2, are integral and inside the buffer, so neither
    [?? 0] fallback is taken. *)
Theorem sample_reads_in_bounds (buf : list Z) (w h : Z) (x y : R) (c : Z) :
  (1 <= w)%Z -> (1 <= h)%Z -> length buf = Z.to_nat (4 * w * h) ->
  (0 <= c <= 2)%Z ->
  let s := samplePixel buf (IZR w) (IZR h) x y in
  typedGet buf (pixelIndex s + IZR c) <> None /\
  typedGet buf (altIndex s + IZR c) <> None.
Proof.
  intros Hw Hh Hlen Hc s.
  destruct (samplePixel_indices buf w h x y) as [Hp Ha]. fold s in Hp, Ha.
  rewrite Hp, Ha, <- !plus_IZR.
  unfold clampIdx.
  split; rewrite typedGet_in_bounds; try discriminate;
    rewrite Hlen, Z2Nat.id by lia;
    apply flat_index_bounds; lia.
Qed.

(** For a non-negative coordinate, the code's secondary point (the clamped
    primary point plus one, clamped again) is the clamped floor of
    [(x + 1, y + 1)]. *)
Lemma secondary_index (w h : Z) (x y : R) :
  0 <= x -> 0 <= y ->
  ((Z.min (h - 1) (clampIdx h (floorZ y) + 1) * w +
    Z.min (w - 1) (clampIdx w (floorZ x) + 1)) * 4)%Z =
  ((clampIdx h (floorZ (y + 1)) * w + clampIdx w (floorZ (x + 1))) * 4)%Z.
Proof.
  intros Hx Hy. pose proof (floorZ_nonneg x Hx). pose proof (floorZ_nonneg y Hy).
  unfold clampIdx. rewrite !floorZ_plus1.
  replace (Z.min (h - 1) (Z.max 0 (floorZ y + 1)))
    with (Z.min (h - 1) (Z.min (h - 1) (Z.max 0 (floorZ y)) + 1)) by lia.
  replace (Z.min (w - 1) (Z.max 0 (floorZ x + 1)))
    with (Z.min (w - 1) (Z.min (w - 1) (Z.max 0 (floorZ x)) + 1)) by lia.
  reflexivity.
Qed.

(** Both taps of the sampler read actual buffer entries. *)
Lemma samplePixel_taps (buf : list Z) (w h : Z) (x y : R) :
  (1 <= w)%Z -> (1 <= h)%Z -> 0 <= x -> 0 <= y ->
  length buf = Z.to_nat (4 * w * h) ->
  let px := clampIdx w (floorZ x) in
  let py := clampIdx h (floorZ y) in
  let qx := clampIdx w (floorZ (x + 1)) in
  let qy := clampIdx h (floorZ (y + 1)) in
  let byte k := IZR (nth (Z.to_nat k) buf 0%Z) in
  let p := ((py * w + px) * 4)%Z in
  let q := ((qy * w + qx) * 4)%Z in
  forall k c, (0 <= c <= 2)%Z ->
            k = p \/ k = q -> readOr0 buf (IZR k + IZR c) = byte (k + c)%Z.
Proof.
  intros Hw Hh Hx Hy Hlen px py qx qy byte p q.
  pose proof (floorZ_nonneg x Hx). pose proof (floorZ_nonneg y Hy).
  assert (Hq : q = ((Z.min (h - 1) (py + 1) * w + Z.min (w - 1) (px + 1)) * 4)%Z).
  { unfold q, qx, qy, px, py, clampIdx. rewrite !floorZ_plus1.
    replace (Z.min (h - 1) (Z.max 0 (floorZ y + 1)))
      with (Z.min (h - 1) (Z.min (h - 1) (Z.max 0 (floorZ y)) + 1)) by lia.
    replace (Z.min (w - 1) (Z.max 0 (floorZ x + 1)))
      with (Z.min (w - 1) (Z.min (w - 1) (Z.max 0 (floorZ x)) + 1)) by lia.
    reflexivity. }
  { intros k c Hc Hk. unfold readOr0. rewrite <- plus_IZR.
    rewrite typedGet_in_bounds; [reflexivity |].
    rewrite Hlen, Z2Nat.id by nia.
    destruct Hk as [-> | ->]; [unfold p | rewrite Hq].
    all: apply flat_index_bounds.
    all: unfold px, py, clampIdx.
    all: lia. }
Qed.

(** ** C5 *)

(** C5: for a grid coordinate [(x, y)] (non-negative, as every traversal
    coordinate is) on a [w] x [h] surface with [w, h >= 1] and an RGBA8 buffer
    of [4 * w * h] bytes, the sampler takes the clamped floor of [(x, y)] as
    primary point, the clamped floor of [(x + 1, y + 1)] as secondary point,
    returns the channel-wise mean of the two pixels, and every channel lies in
    [[0, 255]]. *)
Theorem samplePixel_two_tap_average (buf : list Z) (w h : Z) (x y : R) :
  (1 <= w)%Z -> (1 <= h)%Z -> 0 <= x -> 0 <= y ->
  length buf = Z.to_nat (4 * w * h) ->
  Forall (fun v => (0 <= v <= 255)%Z) buf ->
  let s := samplePixel buf (IZR w) (IZR h) x y in
  let px := clampIdx w (floorZ x) in
  let py := clampIdx h (floorZ y) in
  let qx := clampIdx w (floorZ (x + 1)) in
  let qy := clampIdx h (floorZ (y + 1)) in
  let byte k := IZR (nth (Z.to_nat k) buf 0%Z) in
  let p := ((py * w + px) * 4)%Z in
  let q := ((qy * w + qx) * 4)%Z in
  sampleX s = IZR px /\ sampleY s = IZR py /\
  sr s = (byte p + byte q) / 2 /\
  sg s = (byte (p + 1)%Z + byte (q + 1)%Z) / 2 /\
  sb s = (byte (p + 2)%Z + byte (q + 2)%Z) / 2 /\
  0 <= sr s <= 255 /\ 0 <= sg s <= 255 /\ 0 <= sb s <= 255.
Proof.
  intros Hw Hh Hx Hy Hlen Hall s px py qx qy byte p q.
  pose proof (samplePixel_taps buf w h x y Hw Hh Hx Hy Hlen) as Htap.
  cbn zeta in Htap. fold px py qx qy p q in Htap.
  destruct (samplePixel_coords buf w h x y) as [Hsx Hsy].
  destruct (samplePixel_indices buf w h x y) as [Hp Ha].
  fold s px py in Hsx, Hsy, Hp, Ha. fold p in Hp.
  assert (Ha' : altIndex s = IZR q).
  { rewrite Ha. unfold q, qx, qy, px, py.
    rewrite <- secondary_index by assumption. reflexivity. }
  clear Ha. rename Ha' into Ha.
  assert (Er : sr s = (readOr0 buf (pixelIndex s + IZR 0) + readOr0 buf (altIndex s + IZR 0)) / 2)
    by (rewrite !Rplus_0_r; reflexivity).
  assert (Eg : sg s = (readOr0 buf (pixelIndex s + IZR 1) + readOr0 buf (altIndex s + IZR 1)) / 2)
    by reflexivity.
  assert (Eb : sb s = (readOr0 buf (pixelIndex s + IZR 2) + readOr0 buf (altIndex s + IZR 2)) / 2)
    by reflexivity.
  rewrite Hp, Ha in Er, Eg, Eb.
  rewrite !Htap in Er, Eg, Eb by (lia || tauto).
  rewrite !Z.add_0_r in Er.
  assert (Hrng : forall i, 0 <= readOr0 buf i <= 255) by (intro; apply readOr0_range, Hall).
  assert (Hb : forall k, (k = p \/ k = q) -> forall c, (0 <= c <= 2)%Z -> 0 <= byte (k + c)%Z <= 255).
  { intros k Hk c Hc. pose proof (Hrng (IZR k + IZR c)) as Hr.
    rewrite (Htap k c Hc Hk) in Hr. exact Hr. }
  pose proof (Hb p (or_introl eq_refl)) as Hbp. pose proof (Hb q (or_intror eq_refl)) as Hbq.
  pose proof (Hbp 0%Z ltac:(lia)). pose proof (Hbp 1%Z ltac:(lia)). pose proof (Hbp 2%Z ltac:(lia)).
  pose proof (Hbq 0%Z ltac:(lia)). pose proof (Hbq 1%Z ltac:(lia)). pose proof (Hbq 2%Z ltac:(lia)).
  rewrite !Z.add_0_r in *.
  split; [exact Hsx |]. split; [exact Hsy |].
  split; [exact Er |]. split; [exact Eg |]. split; [exact Eb |].
  rewrite Er, Eg, Eb. unfold byte in *. repeat split; lra.
Qed.

Example textCharacters_sample :
  textCharacters [32; 97; 10; 10; 98; 9]%Z = [97; 32; 98]%Z.
Proof. reflexivity. Qed.

Example textCharacters_blank :
  textCharacters [32; 10; 12288]%Z = [bullet].
Proof. reflexivity. Qed.

Lemma textCharacters_nonempty (lyrics : codeUnits) :
  (0 < length (textCharacters lyrics))%nat.
Proof.
  unfold textCharacters. cbn zeta.
  destruct (Nat.ltb_spec 0 (length (trim (collapseWs lyrics)))); simpl; lia.
Qed.

(** ** C7 *)

(** C7: the glyph sequencer is cyclic with period [N], the length of the
    normalised stream: [at(i)] is [stream[i mod N]] with a newline replaced by
    a space, hence [at(i) = at(i + N)]. *)
Theorem glyphAt_cyclic (lyrics : codeUnits) (i : nat) :
  let chars := textCharacters lyrics in
  let N := length chars in
  glyphAt chars i =
    (let c := nth (i mod N) chars 0%Z in if Z.eqb c newline then space else c) /\
  glyphAt chars i = glyphAt chars (i + N).
Proof.
  intros chars N. split; [reflexivity |].
  unfold glyphAt. fold N.
  pose proof (textCharacters_nonempty lyrics) as HN. fold chars N in HN.
  rewrite Nat.Div0.add_mod, Nat.Div0.mod_same, Nat.add_0_r, Nat.Div0.mod_mod.
  reflexivity.
Qed.

(** ** C8 *)

(** C8: when the text is empty after collapsing whitespace and trimming, the
    stream is the single placeholder "•", and every index yields "•". *)
Theorem glyphAt_placeholder (lyrics : codeUnits) :
  trim (collapseWs lyrics) = [] ->
  textCharacters lyrics = [bullet] /\
  forall i, glyphAt (textCharacters lyrics) i = bullet.
Proof.
  intros Hempty.
  assert (Hc : textCharacters lyrics = [bullet]).
  { unfold textCharacters. rewrite Hempty. reflexivity. }
  split; [exact Hc |].
  intro i. rewrite Hc. unfold glyphAt. simpl length.
  rewrite Nat.mod_1_r. reflexivity.
Qed.

(** The rendered prefix: what every successful render paints before glyphs. *)
Lemma render_shape (c : Component) (cv : Canvas) (img : HTMLImage) (scale boost : R) :
  imageRef c = Some img -> imageWidth c <> 0%Z -> imageHeight c <> 0%Z ->
  let aspect := IZR (imageWidth c) / IZR (imageHeight c) in
  let bw := baseWidthOf (previewWidth c) scale in
  let bh := baseHeightOf (previewWidth c) aspect scale in
  exists glyphs,
    renderToCanvas c (Some cv) scale boost =
      Some {| cwidth := setCanvasDim 300 bw; cheight := setCanvasDim 150 bh;
              painted := [ClearRect bw bh; FillRectBackground bw bh;
                          DrawImageAlpha (underlay (settings c)) bw bh] ++ glyphs |}.
Proof.
  intros Himg Hw Hh aspect bw bh.
  unfold renderToCanvas. rewrite Himg.
  destruct (Z.eqb_spec (imageWidth c) 0) as [E | _]; [contradiction |].
  destruct (Z.eqb_spec (imageHeight c) 0) as [E | _]; [contradiction |].
  simpl. eexists. reflexivity.
Qed.

(** ** C9 *)

(** C9: with no target canvas, no loaded image, or a zero image dimension,
    the render returns at once and leaves the canvas exactly as it was (the
    model is total: no error is raised). *)
Theorem render_noop_on_missing_input (c : Component) (canvas : option Canvas)
    (scale boost : R) :
  canvas = None \/ imageRef c = None \/ imageWidth c = 0%Z \/ imageHeight c = 0%Z ->
  renderToCanvas c canvas scale boost = canvas.
Proof.
  intros H. unfold renderToCanvas.
  destruct canvas as [cv |]; [| reflexivity].
  destruct (imageRef c) as [img |]; [| reflexivity].
  destruct H as [H | [H | [H | H]]]; try discriminate.
  - rewrite H. reflexivity.
  - rewrite H, orb_true_r. reflexivity.
Qed.

(** Every glyph the traversal draws is one cell of the inner loop body. *)
Lemma colLoop_cells data bw bh sf sx con mono chars fuel x y ci op :
  In op (fst (colLoop data bw bh sf sx con mono chars fuel x y ci)) ->
  exists x' ci', op = cellOp data bw bh sf con mono chars x' y ci'.
Proof.
  revert x ci. induction fuel as [| f IH]; intros x ci Hin; simpl in Hin; [contradiction |].
  destruct (Rlt_dec x bw); [| contradiction].
  destruct (colLoop data bw bh sf sx con mono chars f (x + sx) y (S ci)) as [ops ci'] eqn:E.
  simpl in Hin. destruct Hin as [<- | Hin].
  - eauto.
  - apply (IH (x + sx) (S ci)). rewrite E. exact Hin.
Qed.

Lemma rowLoop_cells data bw bh sf sx sy con mono chars fuel y ci op :
  In op (rowLoop data bw bh sf sx sy con mono chars fuel y ci) ->
  exists x' y' ci', op = cellOp data bw bh sf con mono chars x' y' ci'.
Proof.
  revert y ci. induction fuel as [| f IH]; intros y ci Hin; cbn [rowLoop] in Hin; [contradiction |].
  destruct (Rlt_dec y bh); [| contradiction].
  destruct (colLoop data bw bh sf sx con mono chars (loopFuel bw sx) 0 y ci) as [ops ci'] eqn:E.
  apply in_app_or in Hin. destruct Hin as [Hin | Hin].
  - destruct (colLoop_cells data bw bh sf sx con mono chars (loopFuel bw sx) 0 y ci op)
      as [x' [ci'' ->]]; [rewrite E; exact Hin |]. eauto.
  - eapply IH. exact Hin.
Qed.

Lemma gray_surface_width (pw k : Z) : baseWidthOf pw (IZR k) = IZR (pw * k).
Proof. unfold baseWidthOf, jsFloor. rewrite <- mult_IZR, floorZ_IZR. reflexivity. Qed.

Lemma gray_surface_height (pw k : Z) :
  baseHeightOf pw (IZR 100 / IZR 100) (IZR k) = IZR (pw * k).
Proof.
  unfold baseHeightOf, jsFloor.
  replace (IZR pw / (IZR 100 / IZR 100)) with (IZR pw) by field.
  rewrite floorZ_IZR, mult_IZR. reflexivity.
Qed.

(** ** C3 *)




(** ** C6 *)

Section MonoLoops.
Variables (data : list Z) (bw bh sf sx sy con : R) (chars : codeUnits).

Lemma colLoop_mono (fuel : nat) (x y : R) (ci : nat) :
  snd (colLoop data bw bh sf sx con true chars fuel x y ci) =
  snd (colLoop data bw bh sf sx con false chars fuel x y ci) /\
  Forall2 (monoRel (sampleColor data bw bh))
    (fst (colLoop data bw bh sf sx con true chars fuel x y ci))
    (fst (colLoop data bw bh sf sx con false chars fuel x y ci)).
Proof.
  revert x ci. induction fuel as [| f IH]; intros x ci; simpl.
  - split; [reflexivity | constructor].
  - destruct (Rlt_dec x bw) as [Hx | Hx]; simpl; [| split; [reflexivity | constructor]].
    destruct (IH (x + sx) (S ci)) as [Hci Hops].
    destruct (colLoop data bw bh sf sx con true chars f (x + sx) y (S ci)) as [o1 c1].
    destruct (colLoop data bw bh sf sx con false chars f (x + sx) y (S ci)) as [o2 c2].
    simpl in *. split; [exact Hci |].
    constructor; [| exact Hops].
    unfold cellOp, monoRel, sampleColor. simpl.
    repeat split; reflexivity.
Qed.

Lemma rowLoop_mono (fuel : nat) (y : R) (ci : nat) :
  Forall2 (monoRel (sampleColor data bw bh))
    (rowLoop data bw bh sf sx sy con true chars fuel y ci)
    (rowLoop data bw bh sf sx sy con false chars fuel y ci).
Proof.
  revert y ci. induction fuel as [| f IH]; intros y ci; cbn [rowLoop]; [constructor |].
  destruct (Rlt_dec y bh) as [Hy | Hy]; [| constructor].
  destruct (colLoop_mono (loopFuel bw sx) 0 y ci) as [Hci Hops].
  destruct (colLoop data bw bh sf sx con true chars (loopFuel bw sx) 0 y ci) as [o1 c1].
  destruct (colLoop data bw bh sf sx con false chars (loopFuel bw sx) 0 y ci) as [o2 c2].
  simpl in *. subst c2.
  apply Forall2_app; [exact Hops | apply IH].
Qed.
End MonoLoops.

(** C6: two renders that differ only in the monochrome setting either both
    leave the canvas untouched or produce canvases of the same size whose
    drawing operations match one to one: the same glyph, position, weight,
    size and alpha per cell, with fill colour (26, 26, 26) in monochrome mode
    and the rounded sampled colour otherwise. *)
Theorem monochrome_only_recolours (c : Component) (canvas : option Canvas)
    (scale boost : R) :
  let aspect := IZR (imageWidth c) / IZR (imageHeight c) in
  let bw := baseWidthOf (previewWidth c) scale in
  let bh := baseHeightOf (previewWidth c) aspect scale in
  (renderToCanvas (withMono c true) canvas scale boost = canvas /\
   renderToCanvas (withMono c false) canvas scale boost = canvas) \/
  (exists img o1 o2,
     imageRef c = Some img /\
     renderToCanvas (withMono c true) canvas scale boost = Some o1 /\
     renderToCanvas (withMono c false) canvas scale boost = Some o2 /\
     cwidth o1 = cwidth o2 /\ cheight o1 = cheight o2 /\
     Forall2 (monoRel (sampleColor (readBack img bw bh) bw bh))
       (painted o1) (painted o2)).
Proof.
  intros aspect bw bh.
  unfold renderToCanvas.
  cbn [withMono imageRef imageWidth imageHeight previewWidth settings lyrics
       monochrome contrast fontSize spacing underlay].
  destruct canvas as [cv |]; [| left; split; reflexivity].
  destruct (imageRef c) as [img |] eqn:Himg; [| left; split; reflexivity].
  destruct ((imageWidth c =? 0)%Z || (imageHeight c =? 0)%Z)%bool;
    [left; split; reflexivity |].
  right. exists img. do 2 eexists.
  split; [reflexivity |]. split; [reflexivity |]. split; [reflexivity |].
  cbn [cwidth cheight painted app].
  split; [reflexivity |]. split; [reflexivity |].
  do 3 (apply Forall2_cons; [reflexivity |]).
  apply rowLoop_mono.
Qed.

(** ** C4 *)

Lemma truncZ_nonneg (x : R) : 0 <= x -> truncZ x = floorZ x.
Proof. intros Hx. unfold truncZ. destruct (Rle_dec 0 x); [reflexivity | lra]. Qed.

Lemma truncZ_IZR (n : Z) : (0 <= n)%Z -> truncZ (IZR n) = n.
Proof. intros Hn. rewrite truncZ_nonneg by (apply IZR_le; lia). apply floorZ_IZR. Qed.

Lemma setCanvasDim_small (d : Z) (x : R) :
  0 <= x -> (truncZ x < 2 ^ 31)%Z -> setCanvasDim d x = truncZ x.
Proof.
  intros Hx Hlt. unfold setCanvasDim, toUint32.
  assert (H0 : (0 <= truncZ x)%Z).
  { rewrite truncZ_nonneg by exact Hx. apply floorZ_nonneg, Hx. }
  rewrite Z.mod_small by lia.
  destruct (Z.leb_spec (truncZ x) (2 ^ 31 - 1)); [reflexivity | lia].
Qed.

Lemma jsFloor_nonneg (x : R) : 0 <= x -> 0 <= jsFloor x.
Proof. intros Hx. unfold jsFloor. apply IZR_le, floorZ_nonneg, Hx. Qed.

Lemma floorZ_div_nonneg (pw : Z) (aspect : R) :
  (0 <= pw)%Z -> 0 < aspect -> (0 <= floorZ (IZR pw / aspect))%Z.
Proof.
  intros Hpw Ha. apply floorZ_nonneg.
  unfold Rdiv. apply Rmult_le_pos; [apply IZR_le; lia |].
  left. apply Rinv_0_lt_compat, Ha.
Qed.

(** C4 (counterexample): at scale 1.5 (a device pixel ratio the preview
    passes) with preview width 281 and a square image, the code computes a
    height of [281 * 1.5 = 421.5], but the canvas is 421 pixels high. *)
Lemma surface_height_truncated :
  exists out,
    renderToCanvas (sampleComponent 281 1 1 0.08 false) (Some blankCanvas) (3 / 2) 0.7
      = Some out /\
    IZR (cheight out) <> baseHeightOf 281 (IZR 1 / IZR 1) (3 / 2).
Proof.
  destruct (render_shape (sampleComponent 281 1 1 0.08 false) blankCanvas
              {| readBack := fun _ _ => [] |} (3 / 2) 0.7) as [glyphs E];
    try reflexivity; try discriminate.
  rewrite E. eexists. split; [reflexivity |]. cbn [cheight].
  assert (Hh : baseHeightOf 281 (IZR 1 / IZR 1) (3 / 2) = 421.5).
  { unfold baseHeightOf, jsFloor.
    replace (IZR 281 / (IZR 1 / IZR 1)) with (IZR 281) by (field).
    rewrite floorZ_IZR. lra. }
  cbn [previewWidth imageWidth imageHeight sampleComponent]. rewrite Hh.
  assert (Ht : truncZ 421.5 = 421%Z).
  { rewrite truncZ_nonneg by lra. unfold floorZ. symmetry.
    apply Int_part_spec. lra. }
  rewrite setCanvasDim_small; [| lra | rewrite Ht; reflexivity].
  rewrite Ht. lra.
Qed.

(** C4 (amended): for an integer preview width [pw >= 0], a loaded image of
    positive size and a scale [s > 0] (dimensions below 2^31), the surface is
    [floor(pw * s)] wide and [floor(pw / aspect) * s], truncated to an
    integer, high; that height is exact when [s] is an integer; and the
    surface rendered at [s = 4] is exactly 4 times as wide and as high as the
    one rendered at [s = 1]. *)
Theorem surface_dimensions (c : Component) (cv : Canvas) (img : HTMLImage)
    (scale boost boost1 boost4 : R) :
  imageRef c = Some img -> (0 < imageWidth c)%Z -> (0 < imageHeight c)%Z ->
  (0 <= previewWidth c)%Z -> 0 < scale ->
  let pw := previewWidth c in
  let aspect := IZR (imageWidth c) / IZR (imageHeight c) in
  let bh := baseHeightOf pw aspect scale in
  (floorZ (IZR pw * scale) < 2 ^ 31)%Z -> (truncZ bh < 2 ^ 31)%Z ->
  (4 * pw < 2 ^ 31)%Z -> (4 * floorZ (IZR pw / aspect) < 2 ^ 31)%Z ->
  (exists out,
     renderToCanvas c (Some cv) scale boost = Some out /\
     cwidth out = floorZ (IZR pw * scale) /\
     cheight out = truncZ bh /\
     (forall k, scale = IZR k -> cheight out = (floorZ (IZR pw / aspect) * k)%Z)) /\
  (exists o1 o4,
     renderToCanvas c (Some cv) 1 boost1 = Some o1 /\
     renderToCanvas c (Some cv) 4 boost4 = Some o4 /\
     cwidth o4 = (4 * cwidth o1)%Z /\ cheight o4 = (4 * cheight o1)%Z).
Proof.
  intros Himg Hiw Hih Hpw Hs pw aspect bh Hbw Hbh H4w H4h.
  assert (Hasp : 0 < aspect).
  { unfold aspect. apply Rdiv_pos_pos; apply IZR_lt; lia. }
  pose proof (floorZ_div_nonneg pw aspect Hpw Hasp) as Hm.
  set (m := floorZ (IZR pw / aspect)) in *.
  assert (Hbh_eq : forall t, baseHeightOf pw aspect t = IZR m * t) by reflexivity.
  assert (Hpw0 : 0 <= IZR pw) by (apply IZR_le; lia).
  assert (Hm0 : 0 <= IZR m) by (apply IZR_le; lia).
  assert (Hiw0 : imageWidth c <> 0%Z) by lia.
  assert (Hih0 : imageHeight c <> 0%Z) by lia.
  split.
  - destruct (render_shape c cv img scale boost Himg Hiw0 Hih0) as [glyphs E].
    rewrite E. eexists. split; [reflexivity |]. cbn [cwidth cheight].
    fold pw aspect bh.
    split; [| split].
    + unfold baseWidthOf, jsFloor.
      rewrite setCanvasDim_small.
      * apply truncZ_IZR, floorZ_nonneg. apply Rmult_le_pos; lra.
      * apply IZR_le, floorZ_nonneg. apply Rmult_le_pos; lra.
      * rewrite truncZ_IZR; [exact Hbw |]. apply floorZ_nonneg, Rmult_le_pos; lra.
    + apply setCanvasDim_small; [| exact Hbh].
      unfold bh. rewrite Hbh_eq. apply Rmult_le_pos; lra.
    + intros k Hk.
      assert (Hk0 : (0 < k)%Z) by (apply lt_IZR; lra).
      assert (Ebh : bh = IZR (m * k)).
      { unfold bh. rewrite Hbh_eq, Hk, mult_IZR. reflexivity. }
      rewrite Ebh in Hbh |- *. rewrite truncZ_IZR in Hbh by nia.
      rewrite setCanvasDim_small.
      * apply truncZ_IZR. nia.
      * apply IZR_le. nia.
      * rewrite truncZ_IZR by nia. exact Hbh.
  - destruct (render_shape c cv img 1 boost1 Himg Hiw0 Hih0) as [g1 E1].
    destruct (render_shape c cv img 4 boost4 Himg Hiw0 Hih0) as [g4 E4].
    rewrite E1, E4. do 2 eexists.
    split; [reflexivity |]. split; [reflexivity |]. cbn [cwidth cheight].
    fold pw aspect. rewrite !Hbh_eq. unfold baseWidthOf, jsFloor.
    rewrite Rmult_1_r. change 4 with (IZR 4).
    rewrite <- !mult_IZR, !floorZ_IZR.
    rewrite !setCanvasDim_small by (first [apply IZR_le; lia | rewrite truncZ_IZR; lia]).
    rewrite !truncZ_IZR by lia.
    split; lia.
Qed.

Lemma nth_concat_repeat4 (blk : list Z) (n j c : nat) :
  length blk = 4%nat -> (j < n)%nat -> (c < 4)%nat ->
  nth (4 * j + c) (concat (repeat blk n)) 0%Z = nth c blk 0%Z.
Proof.
  intros Hb. revert j. induction n as [| n IH]; intros j Hj Hc; [lia |].
  cbn [repeat concat]. destruct j as [| j].
  - now rewrite app_nth1 by lia.
  - rewrite app_nth2 by lia. rewrite Hb.
    replace (4 * S j + c - 4)%nat with (4 * j + c)%nat by lia.
    apply IH; lia.
Qed.

Lemma grayBuffer_length (w h : Z) :
  (0 <= w)%Z -> (0 <= h)%Z -> length (grayBuffer w h) = Z.to_nat (4 * w * h).
Proof.
  intros Hw Hh. unfold grayBuffer.
  assert (Hl : forall m, length (concat (repeat grayPixel m)) = (4 * m)%nat).
  { induction m as [| m IHm]; [reflexivity |].
    cbn [repeat concat]. rewrite length_app, IHm. simpl. lia. }
  rewrite Hl. replace (4 * w * h)%Z with (4 * (w * h))%Z by ring. lia.
Qed.

Lemma gray_read (w h j c : Z) :
  (1 <= w)%Z -> (1 <= h)%Z -> (0 <= j < w * h)%Z -> (0 <= c <= 2)%Z ->
  readOr0 (grayBuffer w h) (IZR (j * 4) + IZR c) = 128.
Proof.
  intros Hw Hh Hj Hc. unfold readOr0. rewrite <- plus_IZR.
  rewrite typedGet_in_bounds.
  - replace (Z.to_nat (j * 4 + c)) with (4 * Z.to_nat j + Z.to_nat c)%nat by lia.
    unfold grayBuffer. rewrite nth_concat_repeat4 by (reflexivity || lia).
    destruct (Z.to_nat c) as [| [| [| ]]] eqn:Ec; try reflexivity. lia.
  - rewrite grayBuffer_length by lia. nia.
Qed.

Lemma samplePixel_gray (w h : Z) (x y : R) :
  (1 <= w)%Z -> (1 <= h)%Z ->
  let s := samplePixel (grayBuffer w h) (IZR w) (IZR h) x y in
  sr s = 128 /\ sg s = 128 /\ sb s = 128.
Proof.
  intros Hw Hh s.
  destruct (samplePixel_indices (grayBuffer w h) w h x y) as [Hp Ha]. fold s in Hp, Ha.
  set (px := clampIdx w (floorZ x)) in *. set (py := clampIdx h (floorZ y)) in *.
  assert (Hpx : (0 <= px <= w - 1)%Z) by (unfold px, clampIdx; lia).
  assert (Hpy : (0 <= py <= h - 1)%Z) by (unfold py, clampIdx; lia).
  assert (R1 : forall c, (0 <= c <= 2)%Z -> readOr0 (grayBuffer w h) (pixelIndex s + IZR c) = 128).
  { intros c Hc. rewrite Hp. apply gray_read; auto. nia. }
  assert (R2 : forall c, (0 <= c <= 2)%Z -> readOr0 (grayBuffer w h) (altIndex s + IZR c) = 128).
  { intros c Hc. rewrite Ha. apply gray_read; auto. nia. }
  pose proof (R1 0%Z ltac:(lia)) as A0. pose proof (R1 1%Z ltac:(lia)) as A1.
  pose proof (R1 2%Z ltac:(lia)) as A2. pose proof (R2 0%Z ltac:(lia)) as B0.
  pose proof (R2 1%Z ltac:(lia)) as B1. pose proof (R2 2%Z ltac:(lia)) as B2.
  rewrite Rplus_0_r in A0, B0.
  unfold s, samplePixel in *. cbn [sr sg sb pixelIndex altIndex] in *.
  rewrite A0, B0, A1, B1, A2, B2. lra.
Qed.

(** [(127/255)^0.65] lies in [[0.635, 0.6357]]: compare 20th powers. *)
Lemma gray_intensity_bounds : 0.635 <= jsPow (1 - 128 / 255) 0.65 <= 0.6357.
Proof.
  unfold jsPow. destruct (Rlt_dec 0 (1 - 128 / 255)) as [Hpos | Hn]; [| lra].
  set (x := 1 - 128 / 255) in *.
  set (i := Rpower x 0.65).
  assert (Hi : 0 < i) by (unfold i, Rpower; apply exp_pos).
  assert (H20 : i ^ 20 = (127 / 255) ^ 13).
  { unfold i. rewrite <- Rpower_pow by exact Hi. unfold i. rewrite Rpower_mult.
    replace (0.65 * INR 20) with (INR 13) by (simpl; lra).
    rewrite Rpower_pow by exact Hpos. unfold x. f_equal. lra. }
  assert (Lo : 0.635 ^ 20 < (127 / 255) ^ 13) by (simpl; lra).
  assert (Up : (127 / 255) ^ 13 < 0.6357 ^ 20) by (simpl; lra).
  split.
  - apply Rnot_lt_le. intro Hlt.
    assert (i ^ 20 <= 0.635 ^ 20) by (apply pow_incr; lra). lra.
  - apply Rnot_lt_le. intro Hlt.
    assert (0.6357 ^ 20 <= i ^ 20) by (apply pow_incr; lra). lra.
Qed.

(** ** C1 *)

(** The styling of a (128, 128, 128) sample at contrast 1. *)
Lemma gray_style_values (sf : R) :
  let st := cellStyle 128 128 128 1 sf in
  contrasted st = 128 /\ 0.635 <= intensity st <= 0.6357 /\
  weight st = 681%Z /\ 0.79 <= alpha st <= 0.81.
Proof.
  intros st.
  assert (Hc : contrasted st = 128).
  { simpl. rewrite lum_gray. unfold clamp, jsMin, jsMax.
    rewrite Rmax_left by lra. rewrite Rmin_left by lra. lra. }
  assert (Hi : intensity st = jsPow (1 - 128 / 255) 0.65).
  { change (intensity st) with (jsPow (1 - contrasted st / 255) 0.65). rewrite Hc. reflexivity. }
  pose proof gray_intensity_bounds as Hb. rewrite <- Hi in Hb.
  split; [exact Hc |]. split; [exact Hb |]. split.
  - change (weight st) with (jsRound (300 + intensity st * 600)).
    unfold jsRound. symmetry. apply Int_part_spec. lra.
  - change (alpha st) with (0.45 + intensity st * 0.55). lra.
Qed.

(** A cell drawn from a uniform gray buffer at contrast 1. *)
Lemma gray_cellOp (w h : Z) (sf : R) (mono : bool) (chars : codeUnits) (x y : R) (ci : nat) :
  (1 <= w)%Z -> (1 <= h)%Z ->
  let st := cellStyle 128 128 128 1 sf in
  exists f, cellOp (grayBuffer w h) (IZR w) (IZR h) sf 1 mono chars x y ci =
            FillText (glyphAt chars ci) x y (weight st) (size st) f /\ fa f = alpha st.
Proof.
  intros Hw Hh st.
  destruct (samplePixel_gray w h x y Hw Hh) as [Er [Eg Eb]].
  unfold cellOp. cbv zeta. rewrite Er, Eg, Eb.
  destruct mono; eexists; split; reflexivity.
Qed.

(** Every glyph a traversal of a uniform gray buffer draws at contrast 1
    has the styling of a (128, 128, 128) sample. *)
Lemma gray_rowLoop_styles (n : Z) (sf sx sy : R) (mono : bool) (chars : codeUnits)
    (fuel : nat) (y0 : R) (ci : nat) :
  (1 <= n)%Z ->
  let st := cellStyle 128 128 128 1 sf in
  forall ch x y wgt sz f,
    In (FillText ch x y wgt sz f)
       (rowLoop (grayBuffer n n) (IZR n) (IZR n) sf sx sy 1 mono chars fuel y0 ci) ->
    wgt = weight st /\ sz = size st /\ fa f = alpha st.
Proof.
  intros Hn st ch x y wgt sz f Hin.
  apply rowLoop_cells in Hin. destruct Hin as [x' [y' [ci' Hop]]].
  destruct (gray_cellOp n n sf mono chars x' y' ci' Hn Hn) as [f' [Ecell Ha]].
  rewrite Ecell in Hop. injection Hop as _ _ _ Ew Es Ef.
  subst. split; [reflexivity |]. split; [reflexivity |]. exact Ha.
Qed.

Lemma colLoop_S (data : list Z) (bw bh sf sx con : R) (mono : bool) (chars : codeUnits)
    (f : nat) (x y : R) (ci : nat) :
  colLoop data bw bh sf sx con mono chars (S f) x y ci =
    if Rlt_dec x bw then
      let '(ops, ci') := colLoop data bw bh sf sx con mono chars f (x + sx) y (S ci) in
      (cellOp data bw bh sf con mono chars x y ci :: ops, ci')
    else ([], ci).
Proof. reflexivity. Qed.

(** A row at least two steps wide starts with the cells at [x = 0] and
    [x = stepX]. *)
Lemma colLoop_two_cells (data : list Z) (bw bh sf sx con : R) (mono : bool)
    (chars : codeUnits) (y : R) (ci : nat) :
  0 < sx < bw ->
  exists ops ci',
    colLoop data bw bh sf sx con mono chars (loopFuel bw sx) 0 y ci =
      (cellOp data bw bh sf con mono chars 0 y ci ::
       cellOp data bw bh sf con mono chars (0 + sx) y (S ci) :: ops, ci').
Proof.
  intros Hsx. unfold loopFuel.
  assert (Hr : 1 < bw / sx).
  { apply (Rmult_lt_reg_r sx); [lra |]. unfold Rdiv. rewrite Rmult_assoc, Rinv_l by lra. lra. }
  destruct (archimed (bw / sx)) as [Hup _].
  assert (H2 : (2 <= up (bw / sx))%Z).
  { assert (1 < up (bw / sx))%Z by (apply lt_IZR; lra). lia. }
  destruct (Z.to_nat (up (bw / sx))) as [| [| f]] eqn:E; [lia | lia |].
  rewrite colLoop_S. destruct (Rlt_dec 0 bw) as [_ | Hn]; [| lra].
  rewrite colLoop_S. destruct (Rlt_dec (0 + sx) bw) as [_ | Hn]; [| lra].
  destruct (colLoop data bw bh sf sx con mono chars (S f) (0 + sx + sx) y (S (S ci))) as [ops ci'].
  do 2 eexists. reflexivity.
Qed.

(** A non-empty surface starts with the first row. *)
Lemma rowLoop_first_row (data : list Z) (bw bh sf sx sy con : R) (mono : bool)
    (chars : codeUnits) (ci : nat) :
  0 < bh ->
  exists rest,
    rowLoop data bw bh sf sx sy con mono chars (loopFuel bh sy) 0 ci =
      fst (colLoop data bw bh sf sx con mono chars (loopFuel bw sx) 0 0 ci) ++ rest.
Proof.
  intros Hbh. change (loopFuel bh sy) with (S (Z.to_nat (up (bh / sy)))).
  cbn [rowLoop]. destruct (Rlt_dec 0 bh) as [_ | Hn]; [| lra].
  destruct (colLoop data bw bh sf sx con mono chars (loopFuel bw sx) 0 0 ci) as [ops ci'].
  eexists. reflexivity.
Qed.

(** C1 (counterexample): rendering the 100 x 100 gray image at contrast 1 and
    underlay 0 into the narrowest preview the page allows (280 px, scale 1)
    draws glyphs of weight 681, never 724: among them two distinct cells of
    the first row, at [x = 0] and at [x = stepX > 0]. *)
Lemma gray_weight_is_681 :
  exists out,
    renderToCanvas grayComponent (Some blankCanvas) (IZR 1) 1 = Some out /\
    (exists ch1 ch2 x2 sz f1 f2,
       In (FillText ch1 0 0 681 sz f1) (painted out) /\
       In (FillText ch2 x2 0 681 sz f2) (painted out) /\ 0 < x2) /\
    forall ch x y wgt sz f, In (FillText ch x y wgt sz f) (painted out) ->
      wgt = 681%Z /\ wgt <> 724%Z.
Proof.
  unfold renderToCanvas, grayComponent.
  cbn [imageRef imageWidth imageHeight previewWidth settings lyrics Z.eqb orb
       sampleSettings fontSize spacing contrast monochrome underlay].
  rewrite gray_surface_width, gray_surface_height.
  cbn [grayImage readBack]. rewrite !floorZ_IZR.
  set (sX := 18 * IZR 1 * 1.2 * jsMax 0.5 (jsMin 1 1)).
  set (sY := 18 * IZR 1 * 1.2 * 1.4 * jsMax 0.5 (jsMin 1 1)).
  assert (HsX : sX = 21.6).
  { unfold sX, jsMax, jsMin. rewrite Rmin_left by lra. rewrite Rmax_right by lra. lra. }
  assert (Hw : IZR (280 * 1) = 280) by reflexivity.
  pose proof (gray_style_values (18 * IZR 1)) as [_ [_ [Hwt _]]].
  eexists. split; [reflexivity |]. cbn [painted]. split.
  - destruct (rowLoop_first_row (grayBuffer (280 * 1) (280 * 1)) (IZR (280 * 1)) (IZR (280 * 1))
                (18 * IZR 1) sX sY 1 false (textCharacters []) 0) as [rest Erow]; [lra |].
    destruct (colLoop_two_cells (grayBuffer (280 * 1) (280 * 1)) (IZR (280 * 1)) (IZR (280 * 1))
                (18 * IZR 1) sX 1 false (textCharacters []) 0 0) as [ops [ci' Ecol]]; [lra |].
    destruct (gray_cellOp (280 * 1) (280 * 1) (18 * IZR 1) false (textCharacters []) 0 0 0)
      as [f1 [E1 _]]; [lia | lia |].
    destruct (gray_cellOp (280 * 1) (280 * 1) (18 * IZR 1) false (textCharacters []) (0 + sX) 0 1)
      as [f2 [E2 _]]; [lia | lia |].
    rewrite Hwt in E1, E2.
    exists (glyphAt (textCharacters []) 0), (glyphAt (textCharacters []) 1), (0 + sX),
      (size (cellStyle 128 128 128 1 (18 * IZR 1))), f1, f2.
    rewrite Erow, Ecol, E1, E2. cbn [fst].
    split; [| split; [| lra]]; apply in_or_app; right; apply in_or_app; left.
    + left. reflexivity.
    + right. left. reflexivity.
  - intros ch x y wgt sz f Hin.
    destruct Hin as [Hin | [Hin | [Hin | Hin]]]; try discriminate.
    destruct (gray_rowLoop_styles (280 * 1) (18 * IZR 1) sX sY false (textCharacters [])
                (loopFuel (IZR (280 * 1)) sY) 0 0 ltac:(lia) ch x y wgt sz f Hin) as [-> _].
    rewrite Hwt. split; [reflexivity | discriminate].
Qed.

(** C1 (amended): for a 100 x 100 image that is uniform gray (128, 128, 128)
    at every integer size, contrast 1, an integer preview width [pw >= 1] and
    an integer scale [k >= 1], every glyph the render draws is styled from
    contrasted luminance 128: intensity [(127/255)^0.65] in
    [[0.635, 0.6357]] (about 0.636), weight 681 and alpha in [[0.79, 0.81]]
    (about 0.800). *)
Theorem gray_render_cell_values (c : Component) (cv : Canvas) (img : HTMLImage)
    (k : Z) (boost : R) :
  imageRef c = Some img -> imageWidth c = 100%Z -> imageHeight c = 100%Z ->
  contrast (settings c) = 1 -> (1 <= previewWidth c)%Z -> (1 <= k)%Z ->
  (forall w h, (1 <= w)%Z -> (1 <= h)%Z -> readBack img (IZR w) (IZR h) = grayBuffer w h) ->
  let st := cellStyle 128 128 128 1 (fontSize (settings c) * IZR k) in
  contrasted st = 128 /\ 0.635 <= intensity st <= 0.6357 /\
  weight st = 681%Z /\ 0.79 <= alpha st <= 0.81 /\
  exists out,
    renderToCanvas c (Some cv) (IZR k) boost = Some out /\
    forall ch x y wgt sz f, In (FillText ch x y wgt sz f) (painted out) ->
      wgt = weight st /\ sz = size st /\ fa f = alpha st.
Proof.
  intros Himg Hiw Hih Hcon Hpw Hk Hgray st.
  destruct (gray_style_values (fontSize (settings c) * IZR k)) as [H1 [H2 [H3 H4]]].
  fold st in H1, H2, H3, H4.
  do 4 (split; [assumption |]).
  assert (Hn : (1 <= previewWidth c * k)%Z) by nia.
  unfold renderToCanvas. rewrite Himg, Hiw, Hih.
  cbn [Z.eqb orb].
  rewrite gray_surface_width, gray_surface_height, Hgray by exact Hn.
  rewrite Hcon.
  eexists. split; [reflexivity |].
  intros ch x y wgt sz f Hin. cbn [painted] in Hin.
  destruct Hin as [Hin | [Hin | [Hin | Hin]]]; try discriminate.
  exact (gray_rowLoop_styles _ _ _ _ _ _ _ _ _ Hn ch x y wgt sz f Hin).
Qed.


(** ** The glyph sequence *)





(** ** Cell styling: ranges and monotonicity *)

(** [clamp(value, min, max)] lies in [[min, max]] and leaves a value already
    in that range unchanged. *)
Theorem clamp_bounds_and_identity (value lo hi : R) :
  lo <= hi ->
  lo <= clamp value lo hi <= hi /\ (lo <= value <= hi -> clamp value lo hi = value).
Proof.
  intros Hle. unfold clamp, jsMin, jsMax. split.
  - split.
    + apply Rmin_glb; [apply Rmax_r | exact Hle].
    + apply Rmin_r.
  - intros [H1 H2]. rewrite Rmax_left by exact H1. apply Rmin_left. exact H2.
Qed.

Lemma clamp_mono (a b lo hi : R) : a <= b -> clamp a lo hi <= clamp b lo hi.
Proof.
  intros Hab. unfold clamp, jsMin, jsMax.
  apply Rle_min_compat_r. apply Rle_max_compat_r. exact Hab.
Qed.

Lemma jsPow_nonneg (b e : R) : 0 <= jsPow b e.
Proof.
  unfold jsPow. destruct (Rlt_dec 0 b); [| lra].
  unfold Rpower. left. apply exp_pos.
Qed.

Lemma jsPow_mono (a b e : R) : 0 <= e -> a <= b -> jsPow a e <= jsPow b e.
Proof.
  intros He Hab. unfold jsPow at 1.
  destruct (Rlt_dec 0 a) as [Ha | Ha]; [| apply jsPow_nonneg].
  unfold jsPow. destruct (Rlt_dec 0 b) as [Hb | Hb]; [| lra].
  apply Rle_Rpower_l; lra.
Qed.

Lemma Int_part_mono (x y : R) : x <= y -> (Int_part x <= Int_part y)%Z.
Proof.
  intros Hxy.
  destruct (base_Int_part x) as [Hx1 Hx2]. destruct (base_Int_part y) as [Hy1 Hy2].
  apply Z.lt_succ_r. apply lt_IZR. rewrite succ_IZR. lra.
Qed.

Lemma jsRound_mono (x y : R) : x <= y -> (jsRound x <= jsRound y)%Z.
Proof. intros H. unfold jsRound. apply Int_part_mono. lra. Qed.

(** Darker is heavier: for a non-negative contrast, a cell whose luminance is
    not larger gets a glyph whose weight, alpha and (for a non-negative
    scaled font) size are not smaller. *)
Theorem cellStyle_darker_is_heavier (r1 g1 b1 r2 g2 b2 con sf : R) :
  0 <= con -> 0 <= sf ->
  let st1 := cellStyle r1 g1 b1 con sf in
  let st2 := cellStyle r2 g2 b2 con sf in
  luminance st1 <= luminance st2 ->
  intensity st2 <= intensity st1 /\
  (weight st2 <= weight st1)%Z /\
  alpha st2 <= alpha st1 /\
  size st2 <= size st1.
Proof.
  intros Hc Hsf st1 st2 Hl.
  assert (Hi : intensity st2 <= intensity st1).
  { unfold st1, st2 in *. cbn [luminance intensity cellStyle] in *.
    apply jsPow_mono; [lra |].
    assert (clamp ((0.2126 * r1 + 0.7152 * g1 + 0.0722 * b1 - 128) * con + 128) 0 255 <=
            clamp ((0.2126 * r2 + 0.7152 * g2 + 0.0722 * b2 - 128) * con + 128) 0 255).
    { apply clamp_mono. nra. }
    lra. }
  split; [exact Hi |].
  unfold st1, st2 in *. cbn [intensity weight alpha size cellStyle] in *.
  split; [apply jsRound_mono; lra |].
  split; [lra |].
  apply Rmult_le_compat_l; [exact Hsf | lra].
Qed.

(** The glyph size always lies between 0.85 and 1.65 times the scaled font
    size (for a non-negative scaled font). *)
Theorem cellStyle_size_range (r g b con sf : R) :
  0 <= sf ->
  0.85 * sf <= size (cellStyle r g b con sf) <= 1.65 * sf.
Proof.
  intros Hsf. pose proof (intensity_unit r g b con sf) as Hi.
  cbn [size intensity cellStyle] in *. split; nra.
Qed.

(** Every cell colour fits in a byte: each averaged channel of the sampler lies
    in [[0, 255]] when the read-back buffer holds bytes. *)
Lemma samplePixel_channels_range (buf : list Z) (bw bh x y : R) :
  Forall (fun v => (0 <= v <= 255)%Z) buf ->
  let s := samplePixel buf bw bh x y in
  0 <= sr s <= 255 /\ 0 <= sg s <= 255 /\ 0 <= sb s <= 255.
Proof.
  intros Hall s. unfold s, samplePixel. cbn [sr sg sb].
  repeat match goal with
         | |- context [readOr0 buf ?i] =>
             let H := fresh in pose proof (readOr0_range buf i Hall) as H;
             revert H; generalize (readOr0 buf i); intros ? ?
         end.
  repeat split; lra.
Qed.

(** Every glyph a render paints has a fill colour whose channels are bytes
    ([rgba(26, 26, 26, a)] in monochrome mode, the rounded sample otherwise)
    and an alpha in [[0.45, 1]], provided the image data read back from the
    temporary canvas holds bytes (as a [Uint8ClampedArray] does). *)
Theorem render_fill_is_valid_rgba (c : Component) (cv : Canvas) (img : HTMLImage)
    (scale boost : R) :
  imageRef c = Some img -> imageWidth c <> 0%Z -> imageHeight c <> 0%Z ->
  (forall bw bh, Forall (fun v => (0 <= v <= 255)%Z) (readBack img bw bh)) ->
  exists out, renderToCanvas c (Some cv) scale boost = Some out /\
  forall ch x y w sz f, In (FillText ch x y w sz f) (painted out) ->
    (0 <= fr f <= 255)%Z /\ (0 <= fg f <= 255)%Z /\ (0 <= fb f <= 255)%Z /\
    0.45 <= fa f <= 1.
Proof.
  intros Himg Hw Hh Hbytes.
  unfold renderToCanvas. rewrite Himg.
  destruct (Z.eqb_spec (imageWidth c) 0) as [E | _]; [contradiction |].
  destruct (Z.eqb_spec (imageHeight c) 0) as [E | _]; [contradiction |].
  cbn [orb]. eexists. split; [reflexivity |].
  intros ch x y w sz f Hin. cbn [painted] in Hin.
  apply in_app_or in Hin.
  destruct Hin as [[Hin | [Hin | [Hin | []]]] | Hin]; try discriminate.
  apply rowLoop_cells in Hin as [x' [y' [ci' Hop]]].
  unfold cellOp in Hop.
  match type of Hop with
  | context [samplePixel ?d ?bw ?bh x' y'] =>
      pose proof (samplePixel_channels_range d bw bh x' y' (Hbytes _ _)) as Hs;
      destruct (samplePixel d bw bh x' y') as [sX sY pix alt r g b] eqn:Es
  end.
  cbn [sr sg sb] in Hs, Hop. destruct Hs as [Hr0 [Hg0 Hb0]].
  match type of Hop with
  | context [cellStyle ?r ?g ?b ?con ?sf] =>
      pose proof (intensity_unit r g b con sf) as Hi; cbn [intensity cellStyle] in Hi
  end.
  destruct (monochrome (settings c)); injection Hop as _ _ _ _ _ Ef; subst f; cbn [fr fg fb fa].
  - repeat split; try lia; lra.
  - refine (conj _ (conj _ (conj _ _))); try (apply jsRound_range; lra); lra.
Qed.

(** ** The sanitised glyph stream *)

Lemma isWs_space : isWs space = true.
Proof. reflexivity. Qed.

Lemma wsOnlySpace_Forall (s : codeUnits) :
  wsOnlySpace s = true <-> Forall (fun c => isWs c = true -> c = space) s.
Proof.
  unfold wsOnlySpace. rewrite forallb_forall, Forall_forall.
  split; intros H c Hc; specialize (H c Hc).
  - intros Hw. rewrite Hw in H. simpl in H. apply Z.eqb_eq. exact H.
  - destruct (isWs c) eqn:Hw; [| reflexivity].
    simpl. apply Z.eqb_eq. apply H. reflexivity.
Qed.

Definition adjSpace (s : codeUnits) : Prop :=
  exists l1 l2, s = l1 ++ space :: space :: l2.

Lemma noAdjSpace_spec (s : codeUnits) : noAdjSpace s = true <-> ~ adjSpace s.
Proof.
  induction s as [| a t IH].
  - split; [| reflexivity]. intros _ [l1 [l2 E]]. destruct l1; discriminate.
  - destruct t as [| b t'].
    + split; [| reflexivity]. intros _ [l1 [l2 E]].
      destruct l1 as [| x [| y l1]]; discriminate.
    + change (noAdjSpace (a :: b :: t'))
        with (negb (Z.eqb a space && Z.eqb b space) && noAdjSpace (b :: t'))%bool.
      rewrite andb_true_iff, negb_true_iff, IH. split.
      * intros [Hab Hn] [l1 [l2 E]]. destruct l1 as [| x l1].
        -- simpl in E. injection E as Ea Eb _. rewrite Ea, Eb in Hab. discriminate.
        -- injection E as _ E. apply Hn. exists l1, l2. exact E.
      * intros Hn. split.
        -- destruct (Z.eqb_spec a space) as [-> |]; [| reflexivity].
           destruct (Z.eqb_spec b space) as [-> |]; [| reflexivity].
           exfalso. apply Hn. exists [], t'. reflexivity.
        -- intros [l1 [l2 E]]. apply Hn. exists (a :: l1), l2. rewrite E. reflexivity.
Qed.

Lemma adjSpace_app_r (l1 l2 : codeUnits) : adjSpace l2 -> adjSpace (l1 ++ l2).
Proof.
  intros [p [q E]]. exists (l1 ++ p), q. rewrite E, <- app_assoc. reflexivity.
Qed.

Lemma adjSpace_rev (s : codeUnits) : adjSpace (rev s) -> adjSpace s.
Proof.
  intros [p [q E]]. exists (rev q), (rev p).
  rewrite <- (rev_involutive s), E, rev_app_distr. simpl.
  rewrite <- !app_assoc. reflexivity.
Qed.

Lemma dropWs_suffix (s : codeUnits) : exists pre, s = pre ++ dropWs s.
Proof.
  induction s as [| c t [pre IH]]; [exists []; reflexivity |].
  simpl. destruct (isWs c).
  - exists (c :: pre). rewrite IH at 1. reflexivity.
  - exists []. reflexivity.
Qed.

Lemma dropWs_head (s : codeUnits) : headNotWs (dropWs s) = true.
Proof.
  induction s as [| c t IH]; [reflexivity |].
  simpl. destruct (isWs c) eqn:Hc; [exact IH |]. simpl. rewrite Hc. reflexivity.
Qed.

Lemma collapseWsFrom_form (b : bool) (s : codeUnits) :
  Forall (fun c => isWs c = true -> c = space) (collapseWsFrom b s) /\
  ~ adjSpace (collapseWsFrom b s) /\
  (b = true -> headNotWs (collapseWsFrom b s) = true).
Proof.
  revert b. induction s as [| c t IH]; intros b.
  - simpl. split; [constructor |]. split; [| reflexivity].
    intros [l1 [l2 E]]. destruct l1; discriminate.
  - simpl. destruct (isWs c) eqn:Hc; [destruct b |].
    + apply IH.
    + destruct (IH true) as [Hf [Hn Hh]]. specialize (Hh eq_refl).
      split; [constructor; [reflexivity | exact Hf] |]. split; [| discriminate].
      intros [l1 [l2 E]]. destruct l1 as [| x l1].
      * injection E as E. rewrite E in Hh. discriminate.
      * injection E as _ E. apply Hn. exists l1, l2. exact E.
    + destruct (IH false) as [Hf [Hn _]].
      split; [constructor; [intros Hw; congruence | exact Hf] |].
      split; [| intros _; simpl; rewrite Hc; reflexivity].
      intros [l1 [l2 E]]. destruct l1 as [| x l1].
      * injection E as E _. subst c. discriminate.
      * injection E as _ E. apply Hn. exists l1, l2. exact E.
Qed.

(** A list that starts with a non-whitespace unit, taken after a prefix is
    dropped from its reversal, still ends with that unit when reversed
    back. *)
Lemma rev_dropWs_rev_head (d : codeUnits) :
  headNotWs d = true -> headNotWs (rev (dropWs (rev d))) = true.
Proof.
  intros Hd. destruct (dropWs_suffix (rev d)) as [pre E].
  remember (dropWs (rev d)) as e eqn:Ee.
  assert (Hd' : d = rev e ++ rev pre).
  { rewrite <- (rev_involutive d), E, rev_app_distr. reflexivity. }
  destruct (rev e) as [| x r] eqn:Er; [reflexivity |].
  rewrite Hd' in Hd. exact Hd.
Qed.

Lemma trim_form (s : codeUnits) :
  Forall (fun c => isWs c = true -> c = space) s -> ~ adjSpace s ->
  Forall (fun c => isWs c = true -> c = space) (trim s) /\ ~ adjSpace (trim s) /\
  headNotWs (trim s) = true /\ headNotWs (rev (trim s)) = true.
Proof.
  intros Hf Hn. unfold trim.
  destruct (dropWs_suffix s) as [p1 E1].
  destruct (dropWs_suffix (rev (dropWs s))) as [p2 E2].
  assert (Hf1 : Forall (fun c => isWs c = true -> c = space) (dropWs s)).
  { rewrite E1 in Hf. apply Forall_app in Hf. apply Hf. }
  assert (Hn1 : ~ adjSpace (dropWs s)).
  { intros Ha. apply Hn. rewrite E1. apply adjSpace_app_r. exact Ha. }
  split; [| split; [| split]].
  - apply Forall_rev. apply Forall_rev in Hf1. rewrite E2 in Hf1.
    apply Forall_app in Hf1. apply Hf1.
  - intros Ha. apply adjSpace_rev in Ha. apply Hn1, adjSpace_rev.
    rewrite E2. apply adjSpace_app_r. exact Ha.
  - apply rev_dropWs_rev_head. apply dropWs_head.
  - rewrite rev_involutive. apply dropWs_head.
Qed.

(** [textCharacters] yields a non-empty stream whose only whitespace is
    single spaces: no other whitespace unit (no newline, tab, ...), never
    two spaces in a row, and no space at either end. *)
Theorem textCharacters_sanitized (lyrics : codeUnits) :
  let chars := textCharacters lyrics in
  chars <> [] /\ wsOnlySpace chars = true /\ noAdjSpace chars = true /\
  headNotWs chars = true /\ headNotWs (rev chars) = true.
Proof.
  intros chars. unfold chars, textCharacters. cbn zeta.
  destruct (Nat.ltb_spec 0 (length (trim (collapseWs lyrics)))) as [Hl | _];
    [| repeat split; discriminate].
  destruct (collapseWsFrom_form false lyrics) as [Hf [Hn _]].
  destruct (trim_form _ Hf Hn) as [Hf' [Hn' [Hh Ht]]].
  split; [intros E; rewrite E in Hl; simpl in Hl; lia |].
  rewrite wsOnlySpace_Forall, noAdjSpace_spec. auto.
Qed.

Lemma collapseWsFrom_id (s : codeUnits) (b : bool) :
  Forall (fun c => isWs c = true -> c = space) s -> ~ adjSpace s ->
  (b = true -> headNotWs s = true) ->
  collapseWsFrom b s = s.
Proof.
  revert b. induction s as [| c t IH]; intros b Hf Hn Hb; [reflexivity |].
  inversion Hf as [| ? ? Hc Ht]; subst.
  assert (Hnt : ~ adjSpace t).
  { intros Ha. apply Hn. apply (adjSpace_app_r [c]). exact Ha. }
  simpl. destruct (isWs c) eqn:Hw.
  - destruct b; [specialize (Hb eq_refl); simpl in Hb; rewrite Hw in Hb; discriminate |].
    rewrite (Hc eq_refl). f_equal. apply IH; [exact Ht | exact Hnt |].
    intros _. destruct t as [| d t']; [reflexivity |]. simpl.
    destruct (isWs d) eqn:Hd; [| reflexivity].
    exfalso. apply Hn. exists [], t'.
    rewrite (Hc eq_refl). inversion Ht as [| ? ? Hd' _]; subst.
    rewrite (Hd' Hd). reflexivity.
  - f_equal. apply IH; [exact Ht | exact Hnt | discriminate].
Qed.

Lemma dropWs_id (s : codeUnits) : headNotWs s = true -> dropWs s = s.
Proof.
  destruct s as [| c t]; [reflexivity |]. simpl. intros H.
  destruct (isWs c); [discriminate | reflexivity].
Qed.

(** Sanitising is idempotent: the stream of an already sanitised stream is
    that stream itself. *)
Theorem textCharacters_idempotent (lyrics : codeUnits) :
  textCharacters (textCharacters lyrics) = textCharacters lyrics.
Proof.
  destruct (textCharacters_sanitized lyrics) as [Hne [Hf [Hn [Hh Ht]]]].
  set (chars := textCharacters lyrics) in *.
  apply wsOnlySpace_Forall in Hf. apply noAdjSpace_spec in Hn.
  unfold textCharacters at 1. cbn zeta. unfold collapseWs.
  rewrite (collapseWsFrom_id chars false Hf Hn) by discriminate.
  unfold trim. rewrite (dropWs_id chars Hh), (dropWs_id (rev chars) Ht), rev_involutive.
  destruct chars as [| c t]; [contradiction | reflexivity].
Qed.

Definition notWs (c : Z) : bool := negb (isWs c).

Lemma collapseWsFrom_filter (b : bool) (s : codeUnits) :
  filter notWs (collapseWsFrom b s) = filter notWs s.
Proof.
  revert b. induction s as [| c t IH]; intros b; [reflexivity |].
  simpl. unfold notWs at 2. destruct (isWs c) eqn:Hc; [destruct b |]; simpl.
  - apply IH.
  - apply IH.
  - unfold notWs at 1. rewrite Hc. simpl. f_equal. apply IH.
Qed.

Lemma dropWs_filter (s : codeUnits) : filter notWs (dropWs s) = filter notWs s.
Proof.
  induction s as [| c t IH]; [reflexivity |].
  simpl. unfold notWs at 2. destruct (isWs c) eqn:Hc; simpl; [exact IH |].
  unfold notWs. rewrite Hc. reflexivity.
Qed.

(** Sanitising only touches whitespace: when the lyrics hold a
    non-whitespace unit, the stream keeps exactly the non-whitespace units
    of the lyrics, in order. *)
Theorem textCharacters_keeps_text (lyrics : codeUnits) :
  filter notWs lyrics <> [] ->
  filter notWs (textCharacters lyrics) = filter notWs lyrics.
Proof.
  intros Hne.
  assert (Hf : filter notWs (trim (collapseWs lyrics)) = filter notWs lyrics).
  { unfold trim, collapseWs.
    rewrite filter_rev, dropWs_filter, filter_rev, dropWs_filter, rev_involutive.
    apply collapseWsFrom_filter. }
  unfold textCharacters. cbn zeta.
  destruct (Nat.ltb_spec 0 (length (trim (collapseWs lyrics)))) as [_ | Hl]; [exact Hf |].
  exfalso. apply Hne. rewrite <- Hf.
  destruct (trim (collapseWs lyrics)); [reflexivity | simpl in Hl; lia].
Qed.

(** The glyph drawn at any index is a unit of the stream that is either a
    space or not whitespace at all; in particular it is never a newline, so
    the newline-to-space replacement of line 144 never fires. *)
Theorem glyphAt_never_newline (lyrics : codeUnits) (k : nat) :
  let chars := textCharacters lyrics in
  glyphAt chars k = nth (k mod length chars) chars 0%Z /\
  glyphAt chars k <> newline /\
  (isWs (glyphAt chars k) = true -> glyphAt chars k = space).
Proof.
  intros chars.
  destruct (textCharacters_sanitized lyrics) as [Hne [Hf _]]. fold chars in Hne, Hf.
  apply wsOnlySpace_Forall in Hf. rewrite Forall_forall in Hf.
  assert (Hin : In (nth (k mod length chars) chars 0%Z) chars).
  { apply nth_In. apply Nat.mod_upper_bound.
    destruct chars; [contradiction | discriminate]. }
  assert (Hnl : nth (k mod length chars) chars 0%Z <> newline).
  { intros E. pose proof (Hf _ Hin) as H. rewrite E in H.
    specialize (H eq_refl). discriminate. }
  assert (Hg : glyphAt chars k = nth (k mod length chars) chars 0%Z).
  { unfold glyphAt. destruct (Z.eqb_spec (nth (k mod length chars) chars 0%Z) newline);
      [contradiction | reflexivity]. }
  rewrite Hg. split; [reflexivity |]. split; [exact Hnl |]. apply Hf. exact Hin.
Qed.

(** ** The page component *)

(** What every state the page can reach satisfies. *)
Definition homeInvariant (st : HomeState) : Prop :=
  (280 <= previewWidthS st <= 820)%Z /\
  (imageSrc st = None <-> imageRefS st = None) /\
  (processed st = true -> imageSrc st <> None).

Lemma homeInvariant_initial (h : option Canvas) : homeInvariant (initialState h).
Proof.
  unfold homeInvariant, initialState. cbn.
  split; [lia |]. split; [tauto | discriminate].
Qed.

Lemma homeInvariant_step (st : HomeState) (ev : Event) :
  homeInvariant st -> homeInvariant (step st ev).
Proof.
  intros Hi. pose proof Hi as [Hw [Hs Hp]].
  destruct ev as [files url | files url | | | n img nw nh | t | v | v | v | v | | cw | win | |];
    cbn [step].
  - unfold handleFile. destruct (firstFile files) as [f |]; [| exact Hi].
    destruct (String.prefix _ _); [| exact Hi]. exact Hi.
  - unfold handleFile. destruct (firstFile files) as [f |]; [| exact Hi].
    destruct (String.prefix _ _); exact Hi.
  - exact Hi.
  - exact Hi.
  - destruct (nth_error (pendingLoads st) n); [| exact Hi].
    unfold homeInvariant. cbn. split; [exact Hw |]. split; [split; discriminate |].
    intros _; discriminate.
  - exact Hi.
  - exact Hi.
  - exact Hi.
  - exact Hi.
  - exact Hi.
  - exact Hi.
  - destruct cw as [w |]; [| exact Hi].
    unfold homeInvariant. cbn. split; [lia |]. split; [exact Hs | exact Hp].
  - unfold previewEffect.
    destruct (imageSrc st) as [u |] eqn:Eu; [| exact Hi].
    destruct (previewCanvas st); [| exact Hi].
    unfold homeInvariant. cbn. split; [exact Hw |].
    split; [exact Hs | intros _; discriminate].
  - unfold mountPreview. destruct (imageSrc st) as [u |] eqn:Eu; [| exact Hi].
    destruct (previewKey st) as [k |]; [destruct (String.eqb k u); [exact Hi |] |];
      unfold homeInvariant; cbn; (split; [exact Hw | split; [exact Hs | exact Hp]]).
  - unfold handleDownload.
    destruct (imageSrc st) as [u |] eqn:Eu; [| exact Hi].
    destruct (hdCanvas _); exact Hi.
Qed.

Lemma homeInvariant_run (h : option Canvas) (evs : list Event) :
  homeInvariant (run (initialState h) evs).
Proof.
  unfold run. generalize (homeInvariant_initial h).
  generalize (initialState h). induction evs as [| ev evs IH]; intros st Hi; [exact Hi |].
  simpl. apply IH. apply homeInvariant_step, Hi.
Qed.

(** In every state reachable from the initial page by any sequence of
    events, the preview width lies in [[280, 820]], an image source is set
    exactly when an image element is held, and the preview is marked
    processed only once an image source is set. *)
Theorem home_reachable_invariant (h : option Canvas) (evs : list Event) :
  homeInvariant (run (initialState h) evs).
Proof. apply homeInvariant_run. Qed.

(** Only the first file counts and it must have an "image/" type: a change or
    drop with no file, or whose first file is not an image, loads nothing,
    even when a later file is one (a drop still ends the drag highlight). *)
Theorem handleFile_ignores_non_images (st : HomeState) (url : String.string)
    (f : File) (rest : list File) :
  String.prefix "image/"%string (fileType f) = false ->
  step st (InputChange (Some (f :: rest)) url) = st /\
  step st (Drop (Some (f :: rest)) url) = setDragging st false /\
  step st (InputChange None url) = st /\ step st (InputChange (Some []) url) = st /\
  step st (Drop None url) = setDragging st false.
Proof.
  intros Hf. cbn [step firstFile handleFile]. rewrite Hf. repeat split.
Qed.

(** The preview canvas is mounted only while an image source is set. *)
Definition previewMountedOnlyWithSource (st : HomeState) : Prop :=
  imageSrc st = None -> previewCanvas st = None /\ previewKey st = None.

Lemma previewMounted_step (st : HomeState) (ev : Event) :
  previewMountedOnlyWithSource st -> previewMountedOnlyWithSource (step st ev).
Proof.
  unfold previewMountedOnlyWithSource. intros Hi.
  destruct ev as [files url | files url | | | n img nw nh | t | v | v | v | v | | cw | win | |];
    cbn [step].
  - unfold handleFile. destruct (firstFile files) as [f |]; [| exact Hi].
    destruct (String.prefix _ _); exact Hi.
  - unfold handleFile. destruct (firstFile files) as [f |]; [| exact Hi].
    destruct (String.prefix _ _); exact Hi.
  - exact Hi.
  - exact Hi.
  - destruct (nth_error (pendingLoads st) n); [| exact Hi]. discriminate.
  - exact Hi.
  - exact Hi.
  - exact Hi.
  - exact Hi.
  - exact Hi.
  - exact Hi.
  - destruct cw; exact Hi.
  - unfold previewEffect. destruct (imageSrc st) as [u |] eqn:Eu; [| intros _; apply Hi; reflexivity].
    destruct (previewCanvas st); [| intros H; congruence]. cbn. intros H; congruence.
  - unfold mountPreview. destruct (imageSrc st) as [u |] eqn:Eu; [| intros _; apply Hi; reflexivity].
    destruct (previewKey st) as [k |]; [destruct (String.eqb k u); [intros H; congruence |] |];
      cbn; intros H; congruence.
  - unfold handleDownload. destruct (imageSrc st) as [u |] eqn:Eu; [| intros _; apply Hi; reflexivity].
    destruct (hdCanvas _); cbn; intros H; congruence.
Qed.

Lemma previewMounted_run (h : option Canvas) (evs : list Event) :
  previewMountedOnlyWithSource (run (initialState h) evs).
Proof.
  unfold run. assert (H0 : previewMountedOnlyWithSource (initialState h)) by (intros _; split; reflexivity).
  revert H0. generalize (initialState h).
  induction evs as [| ev evs IH]; intros st Hi; [exact Hi |].
  simpl. apply IH. apply previewMounted_step, Hi.
Qed.

Lemma run_load_effect (st : HomeState) (url : String.string) (rest : list String.string)
    (img : HTMLImage) (nw nh : Z) (win : option R) :
  pendingLoads st = url :: rest ->
  run st [ImageLoad 0 img nw nh; PreviewEffect win] =
    previewEffect win (onImageLoad url img nw nh (setPending st rest)).
Proof.
  intros Hp. unfold run. cbn [fold_left step]. rewrite Hp. reflexivity.
Qed.

(** The first image the page loads is not drawn by the preview effect its
    load triggers: when that effect runs, the preview canvas (mounted only
    while [imageSrc] is set, after the placeholder's exit animation) does not
    exist yet, so the effect returns early and the preview stays unprocessed.
    Mounting the canvas afterwards does not re-run the effect: the canvas is
    blank and the preview still unprocessed (drawn at opacity 0). *)
Theorem first_load_not_previewed (h : option Canvas) (evs : list Event)
    (url : String.string) (rest : list String.string) (img : HTMLImage) (nw nh : Z)
    (win : option R) :
  let st := run (initialState h) evs in
  imageSrc st = None -> pendingLoads st = url :: rest ->
  let st' := run st [ImageLoad 0 img nw nh; PreviewEffect win] in
  let st'' := step st' PreviewMount in
  imageSrc st' = Some url /\ imageRefS st' = Some img /\
  previewCanvas st' = None /\ processed st' = false /\
  previewCanvas st'' = Some blankCanvas /\ processed st'' = false.
Proof.
  intros st Hs Hp st' st''.
  destruct (previewMounted_run h evs Hs) as [Hc Hk]. fold st in Hc, Hk.
  assert (E : st' = onImageLoad url img nw nh (setPending st rest)).
  { unfold st'. rewrite (run_load_effect st url rest img nw nh win Hp).
    unfold previewEffect. cbn [onImageLoad imageSrc previewCanvas setPending]. rewrite Hc.
    reflexivity. }
  unfold st''. rewrite E. cbn [onImageLoad setPending imageSrc imageRefS previewCanvas processed].
  rewrite Hc. do 4 (split; [reflexivity |]).
  unfold mountPreview. cbn [onImageLoad setPending imageSrc previewKey].
  cbn. rewrite ?Hk. cbn. split; reflexivity.
Qed.


(** When the preview effect runs with a mounted preview canvas for an image
    of zero natural width or height (e.g. an SVG without intrinsic size), it
    marks the preview processed while the canvas is left as it was: the
    render returns early but the effect does not. *)
Theorem zero_size_image_marked_processed (st : HomeState) (u : String.string) (cv : Canvas)
    (win : option R) :
  imageSrc st = Some u -> previewCanvas st = Some cv ->
  (fst (imageSize st) = 0 \/ snd (imageSize st) = 0)%Z ->
  let st' := step st (PreviewEffect win) in
  processed st' = true /\ previewCanvas st' = Some cv.
Proof.
  intros Hs Hc Hz st'. unfold st'. cbn [step]. unfold previewEffect. rewrite Hs, Hc.
  cbn [processed previewCanvas]. split; [reflexivity |].
  unfold renderToCanvas. cbn [componentOf imageRef imageWidth imageHeight].
  destruct (imageRefS st); [| reflexivity].
  destruct Hz as [-> | ->]; [reflexivity |]. rewrite orb_true_r. reflexivity.
Qed.

(** ** The download *)



(** The download does nothing without an image source, and saves nothing
    while the export canvas is not mounted; with an image of zero width or
    height it still saves "lyric-artwork.png", from the export canvas exactly
    as it was (the render returned early). *)
Theorem download_guards (st : HomeState) :
  (imageSrc st = None -> handleDownload st = (st, None)) /\
  (hdCanvas st = None -> snd (handleDownload st) = None) /\
  (forall hd, imageSrc st <> None -> hdCanvas st = Some hd ->
     (fst (imageSize st) = 0 \/ snd (imageSize st) = 0)%Z ->
     snd (handleDownload st) = Some ("lyric-artwork.png"%string, hd)).
Proof.
  unfold handleDownload. split; [| split].
  - intros ->. reflexivity.
  - intros Hn. destruct (imageSrc st); [| reflexivity].
    cbn [setHdCanvas hdCanvas]. rewrite Hn. reflexivity.
  - intros hd Hs Hhd Hz. destruct (imageSrc st) as [u |]; [| contradiction].
    cbn [setHdCanvas hdCanvas]. rewrite Hhd.
    unfold renderToCanvas. cbn [componentOf imageRef imageWidth imageHeight].
    destruct (imageRefS st); [| reflexivity].
    destruct Hz as [-> | ->]; [reflexivity | rewrite orb_true_r; reflexivity].
Qed.

Lemma grayBuffer_bytes (w h : Z) : Forall (fun v => (0 <= v <= 255)%Z) (grayBuffer w h).
Proof.
  unfold grayBuffer. induction (Z.to_nat (w * h)) as [| n IH]; simpl; [constructor |].
  repeat constructor; try lia. exact IH.
Qed.
(** ** Witnesses: the theorems with hypotheses, applied at concrete inputs *)

(** At (0, 0) of [twoByTwo] the two taps are the distinct pixels (0, 0)
    and (1, 1): each channel is the mean of 10/20/30 and 50/60/70. *)
Lemma samplePixel_two_tap_average_witness :
  let s := samplePixel twoByTwo (IZR 2) (IZR 2) 0 0 in
  sampleX s = 0 /\ sampleY s = 0 /\ sr s = 30 /\ sg s = 40 /\ sb s = 50.
Proof.
  intros s.
  destruct (samplePixel_two_tap_average twoByTwo 2 2 0 0) as [Hx [Hy [Hr [Hg [Hb _]]]]];
    try lia; try lra; try reflexivity.
  - repeat constructor; lia.
  - cbv zeta in Hx, Hy, Hr, Hg, Hb. fold s in Hx, Hy, Hr, Hg, Hb.
    rewrite !floorZ_plus1 in Hr, Hg, Hb. rewrite !floorZ_IZR in Hx, Hy, Hr, Hg, Hb.
    repeat match goal with
    | H : context [IZR (nth ?k ?b ?d)] |- _ =>
        let v := eval vm_compute in (nth k b d) in change (nth k b d) with v in H
    | H : context [IZR (clampIdx ?n ?k)] |- _ =>
        let v := eval vm_compute in (clampIdx n k) in change (clampIdx n k) with v in H
    end.
    rewrite Hx, Hy, Hr, Hg, Hb. repeat split; lra.
Defined.

(** At (0, 0) of [twoByTwo] the primary tap is byte 0 and the diagonal tap
    byte 12; both taps are read in bounds at channel offsets 0, 1 and 2. *)
Lemma sample_reads_in_bounds_witness :
  let s := samplePixel twoByTwo (IZR 2) (IZR 2) 0 0 in
  pixelIndex s = 0 /\ altIndex s = 12 /\
  (typedGet twoByTwo (pixelIndex s + IZR 0) <> None /\
   typedGet twoByTwo (altIndex s + IZR 0) <> None) /\
  (typedGet twoByTwo (pixelIndex s + IZR 1) <> None /\
   typedGet twoByTwo (altIndex s + IZR 1) <> None) /\
  (typedGet twoByTwo (pixelIndex s + IZR 2) <> None /\
   typedGet twoByTwo (altIndex s + IZR 2) <> None).
Proof.
  intros s.
  destruct (samplePixel_indices twoByTwo 2 2 0 0) as [Hp Ha]. fold s in Hp, Ha.
  rewrite ?floorZ_IZR in Hp, Ha.
  split; [rewrite Hp; reflexivity |]. split; [rewrite Ha; reflexivity |].
  split; [| split].
  - apply (sample_reads_in_bounds twoByTwo 2 2 0 0 0); try lia; reflexivity.
  - apply (sample_reads_in_bounds twoByTwo 2 2 0 0 1); try lia; reflexivity.
  - apply (sample_reads_in_bounds twoByTwo 2 2 0 0 2); try lia; reflexivity.
Defined.

Lemma glyphAt_placeholder_witness :
  textCharacters [32; 10; 9]%Z = [bullet] /\
  forall i, glyphAt (textCharacters [32; 10; 9]%Z) i = bullet.
Proof. apply glyphAt_placeholder. reflexivity. Defined.

Lemma render_noop_on_missing_input_witness :
  renderToCanvas grayComponent None 1 1 = None.
Proof. apply render_noop_on_missing_input. left. reflexivity. Defined.


Lemma surface_dimensions_witness :
  exists o1 o4,
    renderToCanvas (sampleComponent 720 100 100 0.08 false) (Some blankCanvas) 1 0.7 = Some o1 /\
    renderToCanvas (sampleComponent 720 100 100 0.08 false) (Some blankCanvas) 4 1 = Some o4 /\
    cwidth o4 = (4 * cwidth o1)%Z /\ cheight o4 = (4 * cheight o1)%Z.
Proof.
  assert (Hsq : IZR 720 / (IZR 100 / IZR 100) = IZR 720) by field.
  apply (surface_dimensions (sampleComponent 720 100 100 0.08 false) blankCanvas
           {| readBack := fun _ _ => [] |} 1 0.7 0.7 1); try reflexivity; try lia; try lra;
    cbn [previewWidth imageWidth imageHeight sampleComponent]; try lia.
  - rewrite Rmult_1_r, floorZ_IZR. lia.
  - unfold baseHeightOf, jsFloor. rewrite Hsq, floorZ_IZR, Rmult_1_r, truncZ_IZR; lia.
  - rewrite Hsq, floorZ_IZR. lia.
Defined.

Lemma gray_render_cell_values_witness :
  weight (cellStyle 128 128 128 1 (18 * IZR 1)) = 681%Z /\
  exists out,
    renderToCanvas grayComponent (Some blankCanvas) (IZR 1) 1 = Some out /\
    forall ch x y wgt sz f, In (FillText ch x y wgt sz f) (painted out) ->
      wgt = weight (cellStyle 128 128 128 1 (18 * IZR 1)) /\
      sz = size (cellStyle 128 128 128 1 (18 * IZR 1)) /\
      fa f = alpha (cellStyle 128 128 128 1 (18 * IZR 1)).
Proof.
  destruct (gray_render_cell_values grayComponent blankCanvas grayImage 1 1)
    as [_ [_ [Hw [_ Hout]]]]; try reflexivity; try (cbn; lia).
  - intros w h _ _. cbn [grayImage readBack]. rewrite !floorZ_IZR. reflexivity.
  - split; [exact Hw | exact Hout].
Defined.


Lemma clamp_bounds_and_identity_witness :
  0 <= clamp 300 0 255 <= 255 /\ (0 <= 300 <= 255 -> clamp 300 0 255 = 300).
Proof. apply clamp_bounds_and_identity. lra. Defined.

Lemma cellStyle_darker_is_heavier_witness :
  (weight (cellStyle 255 255 255 1 18) <= weight (cellStyle 0 0 0 1 18))%Z.
Proof.
  pose proof (cellStyle_darker_is_heavier 0 0 0 255 255 255 1 18 ltac:(lra) ltac:(lra)) as H.
  cbv zeta in H. cbn [luminance cellStyle] in H.
  destruct H as [_ [Hw _]]; [lra | exact Hw].
Defined.

Lemma cellStyle_size_range_witness :
  0.85 * 18 <= size (cellStyle 0 0 0 1 18) <= 1.65 * 18.
Proof. apply cellStyle_size_range. lra. Defined.

Lemma render_fill_is_valid_rgba_witness :
  exists out, renderToCanvas grayComponent (Some blankCanvas) 1 1 = Some out /\
  forall ch x y w sz f, In (FillText ch x y w sz f) (painted out) ->
    (0 <= fr f <= 255)%Z /\ (0 <= fg f <= 255)%Z /\ (0 <= fb f <= 255)%Z /\
    0.45 <= fa f <= 1.
Proof.
  apply (render_fill_is_valid_rgba grayComponent blankCanvas grayImage 1 1);
    try reflexivity; try discriminate.
  intros bw bh. apply grayBuffer_bytes.
Defined.

Lemma textCharacters_keeps_text_witness :
  filter notWs (textCharacters [32; 97; 10; 10; 98; 9]%Z) = filter notWs [32; 97; 10; 10; 98; 9]%Z.
Proof. apply textCharacters_keeps_text. vm_compute. discriminate. Defined.

Lemma handleFile_ignores_non_images_witness :
  step (initialState None)
       (InputChange (Some [{| fileType := "text/plain" |}; {| fileType := "image/png" |}])
                    "blob:1") = initialState None.
Proof.
  destruct (handleFile_ignores_non_images (initialState None) "blob:1"
              {| fileType := "text/plain" |} [{| fileType := "image/png" |}]) as [H _].
  - reflexivity.
  - exact H.
Defined.

Lemma first_load_not_previewed_witness :
  let st := run (initialState None) [InputChange (Some [{| fileType := "image/png" |}]) "blob:1"] in
  let st' := run st [ImageLoad 0 grayImage 100 100; PreviewEffect (Some 2)] in
  processed st' = false /\ previewCanvas (step st' PreviewMount) = Some blankCanvas.
Proof.
  destruct (first_load_not_previewed None
              [InputChange (Some [{| fileType := "image/png" |}]) "blob:1"]
              "blob:1" [] grayImage 100 100 (Some 2) eq_refl eq_refl)
    as [_ [_ [_ [Hp [Hc _]]]]].
  split; [exact Hp | exact Hc].
Defined.


Lemma zero_size_image_marked_processed_witness :
  let st := run (initialState None)
                [InputChange (Some [{| fileType := "image/svg+xml" |}]) "blob:1";
                 ImageLoad 0 grayImage 0 0; PreviewEffect (Some 2); PreviewMount;
                 ToggleMonochrome] in
  processed (step st (PreviewEffect (Some 2))) = true /\
  previewCanvas (step st (PreviewEffect (Some 2))) = Some blankCanvas.
Proof.
  apply (zero_size_image_marked_processed
           (run (initialState None)
                [InputChange (Some [{| fileType := "image/svg+xml" |}]) "blob:1";
                 ImageLoad 0 grayImage 0 0; PreviewEffect (Some 2); PreviewMount;
                 ToggleMonochrome])
           "blob:1" blankCanvas (Some 2) eq_refl eq_refl (or_introl eq_refl)).
Defined.

